(** * channel.c: a bounded channel on a mutex, two condition variables and a
      select semaphore

    The development embeds [src/channel.c].  Every function of the file is
    cut at the points where the calling thread can be suspended
    ([pthread_mutex_lock], [pthread_cond_wait], [sem_wait]); the code between
    two such points runs with the channel's mutex held and is one atomic
    transition of the shared state.  A machine of threads interleaves these
    transitions under an explicit schedule. *)

From Stdlib Require Import NArith Lia.
From stdpp Require Import base option list gmap.

Set Default Proof Using "Type*".

(** ** Values *)

(** [enum chan_status], as far as [channel.c] returns it. *)
Inductive chan_status : Type :=
  | SUCCESS
  | WOULDBLOCK
  | CLOSED_ERROR
  | DESTROY_ERROR
  | OTHER_ERROR.

Global Instance chan_status_eq_dec : EqDecision chan_status.
Proof. solve_decision. Defined.

(** A [void*].  The code never looks inside the pointers it transports, it
    only tests them against [NULL], stores them and stores through them.
    [DataField lst i] is [&channel_list[i].data] for the descriptor array at
    address [lst]; every other non-null pointer is an [Addr]. *)
Inductive ptr : Type :=
  | NULL
  | Addr (a : N)
  | DataField (lst : N) (i : nat).

Global Instance ptr_eq_dec : EqDecision ptr.
Proof. solve_decision. Defined.

(** [!p] on a pointer. *)
Definition is_null (p : ptr) : bool :=
  match p with NULL => true | _ => false end.

(** ** The buffer interface

    [channel.c] uses the buffer through [buffer_create], [buffer_capacity],
    [buffer_current_size], [buffer_add] and [buffer_remove] only; their
    implementation (buffer.c) is not part of the sources.  The channel code
    is therefore embedded over an arbitrary implementation of the interface. *)
Class Buffer : Type := {
  buffer_t : Type;
  buffer_create : N → buffer_t;
  buffer_capacity : buffer_t → N;
  buffer_current_size : buffer_t → N;
  (* bool buffer_add(void* data, buffer_t* buffer) *)
  buffer_add : ptr → buffer_t → bool * buffer_t;
  (* void* buffer_remove(buffer_t* buffer) *)
  buffer_remove : buffer_t → ptr * buffer_t
}.

(** Modelled from the spec: the contract of the Buffer collaborator, whose
    code (buffer.c) is not among the sources.  "Fixed-capacity FIFO container
    of opaque values", with "insert-if-not-full" and "remove-if-not-empty":
    a buffer created with capacity [n] is empty and has that capacity, its
    size is the number of stored values, an insertion into a buffer with room
    succeeds, a successful insertion appends its value, and a removal from a
    buffer that is not empty hands out the oldest value.  [contents] lists
    the stored values, oldest first. *)
Class BufferFifo (B : Buffer) (contents : buffer_t → list ptr) : Prop := {
  buffer_create_contents n : contents (buffer_create n) = [];
  buffer_create_capacity n : buffer_capacity (buffer_create n) = n;
  buffer_size_contents b :
    buffer_current_size b = N.of_nat (length (contents b));
  buffer_add_room v b :
    (buffer_current_size b < buffer_capacity b)%N → (buffer_add v b).1 = true;
  buffer_add_true v b :
    (buffer_add v b).1 = true →
    contents (buffer_add v b).2 = contents b ++ [v] ∧
    buffer_capacity (buffer_add v b).2 = buffer_capacity b;
  buffer_remove_cons b x xs :
    contents b = x :: xs →
    (buffer_remove b).1 = x ∧
    contents (buffer_remove b).2 = xs ∧
    buffer_capacity (buffer_remove b).2 = buffer_capacity b
}.

(** Modelled from the spec: the Buffer collaborator (buffer.h and buffer.c are
    not among the sources).  "Fixed-capacity FIFO container of opaque values.
    Exposes capacity, current occupancy, try-insert, try-remove":
    [try_insert] stores the value and answers [true] unless the buffer is
    full; [try_remove] hands out the oldest value, or nothing ([NULL]) when
    the buffer is empty. *)
Record list_buffer : Type := ListBuffer {
  lb_capacity : N;
  lb_items : list ptr
}.

(** Modelled from the spec: [buffer_add], "insert-if-not-full"; the value goes
    behind the ones already stored. *)
Definition lb_add (v : ptr) (b : list_buffer) : bool * list_buffer :=
  if (N.of_nat (length (lb_items b)) <? lb_capacity b)%N
  then (true, ListBuffer (lb_capacity b) (lb_items b ++ [v]))
  else (false, b).

(** Modelled from the spec: [buffer_remove], "remove-if-not-empty"; the oldest
    value comes out. *)
Definition lb_remove (b : list_buffer) : ptr * list_buffer :=
  match lb_items b with
  | [] => (NULL, b)
  | x :: xs => (x, ListBuffer (lb_capacity b) xs)
  end.

(** Modelled from the spec: the buffer interface on [list_buffer]. *)
Definition list_Buffer : Buffer := {|
  buffer_t := list_buffer;
  buffer_create n := ListBuffer n [];
  buffer_capacity := lb_capacity;
  buffer_current_size b := N.of_nat (length (lb_items b));
  buffer_add := lb_add;
  buffer_remove := lb_remove
|}.

(** ** Condition variables and semaphores

    A [pthread_cond_t] is kept as the number of threads that wait on it and
    the number of wake-ups that are pending for them; a [sem_t] is its
    counter.  Semaphores live in a table indexed by their address:
    [channel_select] allocates one per call and never frees it. *)
Record pthread_cond_t : Type := Cond {
  waiting : nat;
  signalled : nat
}.

Definition pthread_cond_init : pthread_cond_t := Cond 0 0.

(** The calling thread joins the waiters (it also releases the mutex, which
    the caller of this function writes out). *)
Definition pthread_cond_wait (cv : pthread_cond_t) : pthread_cond_t :=
  Cond (S (waiting cv)) (signalled cv).

(** Wakes one waiter if there is one that is not woken already. *)
Definition pthread_cond_signal (cv : pthread_cond_t) : pthread_cond_t :=
  if signalled cv <? waiting cv then Cond (waiting cv) (S (signalled cv)) else cv.

Definition pthread_cond_broadcast (cv : pthread_cond_t) : pthread_cond_t :=
  Cond (waiting cv) (waiting cv).

(** A waiter leaves [pthread_cond_wait]: it takes a pending wake-up, or it
    wakes spuriously, which POSIX allows. *)
Definition cond_wake (spurious : bool) (cv : pthread_cond_t) : option pthread_cond_t :=
  if spurious
  then Some (Cond (pred (waiting cv)) (min (signalled cv) (pred (waiting cv))))
  else match signalled cv with
       | O => None
       | S n => Some (Cond (pred (waiting cv)) n)
       end.

(** [select_t]: one descriptor of a select list. *)
Record select_t : Type := Select {
  channel : nat;
  is_send : bool;
  data : ptr
}.

(** The arguments and the local [semaphore] of a running [channel_select]. *)
Record select_frame : Type := Frame {
  channel_count : nat;
  channel_list : N;
  entries : list select_t;
  sem : nat
}.

(** ** Program points

    Where a thread stands between two atomic transitions: at the entry of a
    function, inside one of the waits, or returned. *)
Inductive pc : Type :=
  | PCreate (size : N)
  | PSend (c : nat) (data : ptr) (blocking : bool)
  | PSendWait (c : nat) (data : ptr)
  | PReceive (c : nat) (data : ptr) (blocking : bool)
  | PReceiveWait (c : nat) (data : ptr)
  | PClose (c : nat)
  | PDestroy (c : nat)
  | PSelect (count : nat) (lst : N) (ds : list select_t)
  | PSelectRegister (fr : select_frame) (i : nat)
  | PSelectScan (fr : select_frame) (i : nat)
  | PSelectWait (fr : select_frame)
  | PReturn (st : chan_status)
  | PReturnChan (c : option nat).

(** A thread: its program point and what it has written through the pointers
    it was given, [*selected_index = i] and [*data = v] (latest first). *)
Record thread : Type := Thread {
  at_pc : pc;
  selected_index : option nat;
  stores : list (ptr * ptr)
}.

Definition spawn (p : pc) : thread := Thread p None [].

Definition set_pc (p : pc) (t : thread) : thread :=
  Thread p (selected_index t) (stores t).

Definition set_selected_index (i : nat) (t : thread) : thread :=
  Thread (at_pc t) (Some i) (stores t).

(** [*p = v]: a store through [NULL] has no defined behaviour. *)
Definition store (p v : ptr) (t : thread) : option thread :=
  if is_null p then None
  else Some (Thread (at_pc t) (selected_index t) ((p, v) :: stores t)).

(** The status a thread returned, and the value it last stored at [p]. *)
Definition returned (t : thread) : option chan_status :=
  match at_pc t with PReturn st => Some st | _ => None end.

Definition stored_at (p : ptr) (t : thread) : option ptr :=
  (λ r, r.2.2) <$> list_find (λ pv, pv.1 = p) (stores t).

(** ** The channel and the shared state *)
Section Channel.
Context {B : Buffer}.

(** [chan_t]: the fields [channel.c] uses.  [mutex] is [true] while the mutex
    is locked. *)
Record chan_t : Type := Chan {
  buffer : buffer_t;
  semaphore : option nat;
  open : bool;
  recv : pthread_cond_t;
  send : pthread_cond_t;
  mutex : bool
}.

Definition set_buffer (b : buffer_t) (ch : chan_t) : chan_t :=
  Chan b (semaphore ch) (open ch) (recv ch) (send ch) (mutex ch).
Definition set_semaphore (s : option nat) (ch : chan_t) : chan_t :=
  Chan (buffer ch) s (open ch) (recv ch) (send ch) (mutex ch).
Definition set_open (o : bool) (ch : chan_t) : chan_t :=
  Chan (buffer ch) (semaphore ch) o (recv ch) (send ch) (mutex ch).
Definition set_recv (cv : pthread_cond_t) (ch : chan_t) : chan_t :=
  Chan (buffer ch) (semaphore ch) (open ch) cv (send ch) (mutex ch).
Definition set_send (cv : pthread_cond_t) (ch : chan_t) : chan_t :=
  Chan (buffer ch) (semaphore ch) (open ch) (recv ch) cv (mutex ch).
Definition set_mutex (m : bool) (ch : chan_t) : chan_t :=
  Chan (buffer ch) (semaphore ch) (open ch) (recv ch) (send ch) m.

(** The heap: the allocated channels by address, and the semaphores. *)
Record state : Type := State {
  chans : gmap nat chan_t;
  sems : list nat
}.

(** What one atomic transition of a thread does: it moves on, it cannot move
    now (the mutex is taken, no wake-up is pending, the semaphore is zero, or
    the thread has returned), or it has no defined behaviour (a null or
    dangling pointer is dereferenced). *)
Inductive outcome : Type :=
  | Next (σ : state) (t : thread)
  | Stuck
  | Crash.

(** [return st;] *)
Definition ret (st : chan_status) (σ : state) (t : thread) : outcome :=
  Next σ (set_pc (PReturn st) t).

(** [pthread_mutex_lock(&channel->mutex)] followed by [k], which works on the
    locked channel.  The mutex has the default attributes: locking it while it
    is held suspends the caller, whoever holds it. *)
Definition pthread_mutex_lock (c : nat) (σ : state) (k : chan_t → outcome) : outcome :=
  match chans σ !! c with
  | None => Crash
  | Some ch => if mutex ch then Stuck else k (set_mutex true ch)
  end.

(** The channel [ch], as the code left it, goes back to the heap, with its
    mutex released or still held. *)
Definition pthread_mutex_unlock (c : nat) (ch : chan_t) (σ : state) : state :=
  State (<[c := set_mutex false ch]> (chans σ)) (sems σ).

Definition keep_locked (c : nat) (ch : chan_t) (σ : state) : state :=
  State (<[c := ch]> (chans σ)) (sems σ).

Definition sem_post (s : nat) (σ : state) : state :=
  State (chans σ) (alter S s (sems σ)).

(** [if(channel->semaphore){ sem_post(channel->semaphore); }] *)
Definition post_semaphore (ch : chan_t) (σ : state) : state :=
  match semaphore ch with
  | Some s => sem_post s σ
  | None => σ
  end.

(** *** channel_create *)
Definition channel_create (size : N) (σ : state) (t : thread) : outcome :=
  if (size =? 0)%N then Next σ (set_pc (PReturnChan None) t)
  else
    let channel := fresh (dom (chans σ)) in
    let ch := Chan (buffer_create size) None true
                   pthread_cond_init pthread_cond_init false in
    Next (State (<[channel := ch]> (chans σ)) (sems σ))
         (set_pc (PReturnChan (Some channel)) t).

(** *** channel_send *)

(** Lines 56-58 and 78-80 (74-80 for the non-blocking call). *)
Definition send_done (c : nat) (ch : chan_t) (σ : state) (t : thread) : outcome :=
  ret SUCCESS
      (pthread_mutex_unlock c (set_recv (pthread_cond_signal (recv ch)) ch)
                            (post_semaphore ch σ)) t.

(** Lines 49-54 (67-72): the insertion is guarded by [channel->open]. *)
Definition send_add (c : nat) (data : ptr) (ch : chan_t) (σ : state) (t : thread) : outcome :=
  if open ch then
    let r := buffer_add data (buffer ch) in
    if negb r.1 then ret OTHER_ERROR (pthread_mutex_unlock c (set_buffer r.2 ch) σ) t
    else send_done c (set_buffer r.2 ch) σ t
  else send_done c ch σ t.

(** Lines 41-47, from the test of the [while]: taken at the entry of a
    blocking call and again after every wake-up. *)
Definition send_wait (c : nat) (data : ptr) (ch : chan_t) (σ : state) (t : thread) : outcome :=
  if (buffer_capacity (buffer ch) =? buffer_current_size (buffer ch))%N then
    if negb (open ch) then ret CLOSED_ERROR (pthread_mutex_unlock c ch σ) t
    else Next (pthread_mutex_unlock c (set_send (pthread_cond_wait (send ch)) ch) σ)
              (set_pc (PSendWait c data) t)
  else send_add c data ch σ t.

(** From line 33 to the first [return] or [pthread_cond_wait]. *)
Definition channel_send (c : nat) (data : ptr) (blocking : bool) (σ : state) (t : thread) : outcome :=
  pthread_mutex_lock c σ (λ ch,
    if negb (open ch) then ret CLOSED_ERROR (pthread_mutex_unlock c ch σ) t
    else if blocking then send_wait c data ch σ t
    else if (buffer_capacity (buffer ch) =? buffer_current_size (buffer ch))%N
         then ret WOULDBLOCK (pthread_mutex_unlock c ch σ) t
         else send_add c data ch σ t).

(** The thread leaves [pthread_cond_wait] at line 46 with the mutex locked
    again and is back at the test of the [while]. *)
Definition channel_send_wake (spurious : bool) (c : nat) (data : ptr) (σ : state) (t : thread) : outcome :=
  match chans σ !! c with
  | None => Crash
  | Some ch =>
      match cond_wake spurious (send ch) with
      | None => Stuck
      | Some cv => pthread_mutex_lock c σ (λ ch, send_wait c data (set_send cv ch) σ t)
      end
  end.

(** *** channel_receive *)

(** Lines 115-117 and 138-140 (133-140). *)
Definition receive_done (c : nat) (ch : chan_t) (σ : state) (t : thread) : outcome :=
  ret SUCCESS
      (pthread_mutex_unlock c (set_send (pthread_cond_signal (send ch)) ch)
                            (post_semaphore ch σ)) t.

(** Lines 108-114 (126-132): [*data = buffer_remove(channel->buffer)], then
    the test [!data] of the pointer itself. *)
Definition receive_remove (c : nat) (data : ptr) (ch : chan_t) (σ : state) (t : thread) : outcome :=
  if open ch then
    let r := buffer_remove (buffer ch) in
    match store data r.1 t with
    | None => Crash
    | Some t' =>
        if is_null data then ret OTHER_ERROR (pthread_mutex_unlock c (set_buffer r.2 ch) σ) t'
        else receive_done c (set_buffer r.2 ch) σ t'
    end
  else receive_done c ch σ t.

(** Lines 101-107, from the test of the [while]. *)
Definition receive_wait (c : nat) (data : ptr) (ch : chan_t) (σ : state) (t : thread) : outcome :=
  if (buffer_current_size (buffer ch) =? 0)%N then
    if negb (open ch) then ret CLOSED_ERROR (pthread_mutex_unlock c ch σ) t
    else Next (pthread_mutex_unlock c (set_recv (pthread_cond_wait (recv ch)) ch) σ)
              (set_pc (PReceiveWait c data) t)
  else receive_remove c data ch σ t.

(** From line 93 to the first [return] or [pthread_cond_wait]. *)
Definition channel_receive (c : nat) (data : ptr) (blocking : bool) (σ : state) (t : thread) : outcome :=
  pthread_mutex_lock c σ (λ ch,
    if negb (open ch) then ret CLOSED_ERROR (pthread_mutex_unlock c ch σ) t
    else if blocking then receive_wait c data ch σ t
    else if (buffer_current_size (buffer ch) =? 0)%N
         then ret WOULDBLOCK (pthread_mutex_unlock c ch σ) t
         else receive_remove c data ch σ t).

(** The thread leaves [pthread_cond_wait] at line 106. *)
Definition channel_receive_wake (spurious : bool) (c : nat) (data : ptr) (σ : state) (t : thread) : outcome :=
  match chans σ !! c with
  | None => Crash
  | Some ch =>
      match cond_wake spurious (recv ch) with
      | None => Stuck
      | Some cv => pthread_mutex_lock c σ (λ ch, receive_wait c data (set_recv cv ch) σ t)
      end
  end.

(** *** channel_close *)
Definition channel_close (c : nat) (σ : state) (t : thread) : outcome :=
  pthread_mutex_lock c σ (λ ch,
    if negb (open ch) then ret CLOSED_ERROR (pthread_mutex_unlock c ch σ) t
    else
      let ch1 := set_open false ch in
      let ch2 := set_send (pthread_cond_broadcast (send ch1)) ch1 in
      let ch3 := set_recv (pthread_cond_broadcast (recv ch2)) ch2 in
      ret SUCCESS (pthread_mutex_unlock c ch3 (post_semaphore ch3 σ)) t).

(** *** channel_destroy

    Reads [channel->open] without the mutex; [free(channel)] takes the
    channel, with its buffer, off the heap. *)
Definition channel_destroy (c : nat) (σ : state) (t : thread) : outcome :=
  match chans σ !! c with
  | None => Crash
  | Some ch =>
      if open ch then ret DESTROY_ERROR σ t
      else ret SUCCESS (State (delete c (chans σ)) (sems σ)) t
  end.

(** *** channel_select *)

(** Where the first [for] (lines 208-212) goes on with index [i], and where
    the scanning [for] (lines 215-232) does: past the last descriptor the
    first loop falls into the scan and the scan into [sem_wait]. *)
Definition scan_from (fr : select_frame) (i : nat) : pc :=
  if i <? channel_count fr then PSelectScan fr i else PSelectWait fr.

Definition register_from (fr : select_frame) (i : nat) : pc :=
  if i <? channel_count fr then PSelectRegister fr i else scan_from fr 0.

(** Lines 205-206: the semaphore is allocated with count zero. *)
Definition channel_select (count : nat) (lst : N) (ds : list select_t) (σ : state) (t : thread) : outcome :=
  let fr := Frame count lst ds (length (sems σ)) in
  Next (State (chans σ) (sems σ ++ [0])) (set_pc (register_from fr 0) t).

(** Lines 209-211, for one [i]. *)
Definition select_register (fr : select_frame) (i : nat) (σ : state) (t : thread) : outcome :=
  match entries fr !! i with
  | None => Crash
  | Some d =>
      pthread_mutex_lock (channel d) σ (λ ch,
        Next (pthread_mutex_unlock (channel d) (set_semaphore (Some (sem fr)) ch) σ)
             (set_pc (register_from fr (S i)) t))
  end.

(** Lines 216-231, for one [i].  A descriptor that is ready is committed to:
    the index is written, the mutex released and the blocking call entered
    with the address of the descriptor's [data] field.  For a descriptor that
    is not ready the loop goes on without [pthread_mutex_unlock]. *)
Definition select_scan (fr : select_frame) (i : nat) (σ : state) (t : thread) : outcome :=
  match entries fr !! i with
  | None => Crash
  | Some d =>
      pthread_mutex_lock (channel d) σ (λ ch,
        if is_send d then
          if (buffer_current_size (buffer ch) <? buffer_capacity (buffer ch))%N then
            Next (pthread_mutex_unlock (channel d) ch σ)
                 (set_pc (PSend (channel d) (DataField (channel_list fr) i) true)
                         (set_selected_index i t))
          else Next (keep_locked (channel d) ch σ) (set_pc (scan_from fr (S i)) t)
        else
          if negb (buffer_current_size (buffer ch) =? 0)%N then
            Next (pthread_mutex_unlock (channel d) ch σ)
                 (set_pc (PReceive (channel d) (DataField (channel_list fr) i) true)
                         (set_selected_index i t))
          else Next (keep_locked (channel d) ch σ) (set_pc (scan_from fr (S i)) t))
  end.

(** Line 233: [sem_wait], then the scan starts over. *)
Definition select_wait (fr : select_frame) (σ : state) (t : thread) : outcome :=
  match sems σ !! sem fr with
  | None => Crash
  | Some O => Stuck
  | Some (S n) =>
      Next (State (chans σ) (<[sem fr := n]> (sems σ))) (set_pc (scan_from fr 0) t)
  end.

(** ** Threads and schedules *)

(** One transition of a thread.  [spurious] asks a thread that waits on a
    condition variable to wake without a signal. *)
Definition step_thread (spurious : bool) (σ : state) (t : thread) : outcome :=
  match at_pc t with
  | PSendWait c data => channel_send_wake spurious c data σ t
  | PReceiveWait c data => channel_receive_wake spurious c data σ t
  | p =>
      if spurious then Stuck
      else match p with
           | PCreate size => channel_create size σ t
           | PSend c data blocking => channel_send c data blocking σ t
           | PReceive c data blocking => channel_receive c data blocking σ t
           | PClose c => channel_close c σ t
           | PDestroy c => channel_destroy c σ t
           | PSelect count lst ds => channel_select count lst ds σ t
           | PSelectRegister fr i => select_register fr i σ t
           | PSelectScan fr i => select_scan fr i σ t
           | PSelectWait fr => select_wait fr σ t
           | _ => Stuck
           end
  end.

Record machine : Type := Machine {
  shared : state;
  threads : list thread
}.

Inductive label : Type :=
  | Run (tid : nat)
  | Spurious (tid : nat).

Definition step (l : label) (m : machine) : option machine :=
  let '(spurious, tid) :=
    match l with Run tid => (false, tid) | Spurious tid => (true, tid) end in
  match threads m !! tid with
  | None => None
  | Some t =>
      match step_thread spurious (shared m) t with
      | Next σ t' => Some (Machine σ (<[tid := t']> (threads m)))
      | _ => None
      end
  end.

Fixpoint run (sched : list label) (m : machine) : option machine :=
  match sched with
  | [] => Some m
  | l :: sched' =>
      match step l m with
      | Some m' => run sched' m'
      | None => None
      end
  end.

(** ** One caller on its own

    A call with no other thread around: the transitions of the one thread in
    a row.  A transition that cannot move will never be able to, nobody else
    being there to change the state. *)
Inductive call_result : Type :=
  | Returned (σ : state) (t : thread)
  | Deadlock
  | Undefined
  | OutOfFuel.

Fixpoint call (fuel : nat) (σ : state) (t : thread) : call_result :=
  match at_pc t with
  | PReturn _ | PReturnChan _ => Returned σ t
  | _ =>
      match fuel with
      | O => OutOfFuel
      | S fuel' =>
          match step_thread false σ t with
          | Next σ' t' => call fuel' σ' t'
          | Stuck => Deadlock
          | Crash => Undefined
          end
      end
  end.

(** The program points a thread can move from. *)
Definition entry (p : pc) : Prop :=
  match p with PReturn _ | PReturnChan _ => False | _ => True end.

(** A call from its entry to its return, by a caller on its own.  [fuel]
    bounds the transitions; every function but [channel_select] returns in
    one. *)
Definition invoke (fuel : nat) (p : pc) (σ : state) : option (thread * state) :=
  match call fuel σ (spawn p) with
  | Returned σ' t => Some (t, σ')
  | _ => None
  end.

(** The sends of [vs] in a row, every one of which returns [SUCCESS]: each
    entry is the value with the [blocking] flag of its call. *)
Fixpoint sends (c : nat) (vs : list (ptr * bool)) (σ : state) : option state :=
  match vs with
  | [] => Some σ
  | (v, blocking) :: vs' =>
      match invoke 1 (PSend c v blocking) σ with
      | Some (t, σ') =>
          if decide (returned t = Some SUCCESS) then sends c vs' σ' else None
      | None => None
      end
  end.

(** The receives of [rs] in a row, every one of which returns [SUCCESS]: each
    entry is the output pointer with the [blocking] flag of its call.  The
    result lists what each call left in its output slot. *)
Fixpoint receives (c : nat) (rs : list (ptr * bool)) (σ : state) : option (list (option ptr) * state) :=
  match rs with
  | [] => Some ([], σ)
  | (data, blocking) :: rs' =>
      match invoke 1 (PReceive c data blocking) σ with
      | Some (t, σ') =>
          if decide (returned t = Some SUCCESS)
          then match receives c rs' σ' with
               | Some (outs, σ'') => Some (stored_at data t :: outs, σ'')
               | None => None
               end
          else None
      | None => None
      end
  end.

(** The channel at [c] is allocated with its mutex free, has capacity [cap],
    open flag [o], and buffers [xs], oldest first. *)
Definition chan_state (contents : buffer_t → list ptr) (σ : state) (c : nat) (cap : N) (o : bool) (xs : list ptr) : Prop :=
  ∃ ch, chans σ !! c = Some ch ∧ mutex ch = false ∧ open ch = o ∧
        buffer_capacity (buffer ch) = cap ∧ contents (buffer ch) = xs.

(** The readiness tests of the scan, lines 218 and 226. *)
Definition ready (d : select_t) (ch : chan_t) : bool :=
  if is_send d
  then (buffer_current_size (buffer ch) <? buffer_capacity (buffer ch))%N
  else negb (buffer_current_size (buffer ch) =? 0)%N.

Definition ready_in (σ : state) (d : select_t) : bool :=
  match chans σ !! channel d with
  | Some ch => ready d ch
  | None => false
  end.

(** [n] transitions of a thread, with nobody in between. *)
Fixpoint advance (n : nat) (σ : state) (t : thread) : outcome :=
  match n with
  | O => Next σ t
  | S n' =>
      match step_thread false σ t with
      | Next σ' t' => advance n' σ' t'
      | o => o
      end
  end.

(** The channel at [c] is in [σ'] what it is in [σ], up to its semaphore and
    condition variables, and its mutex is free. *)
Definition untouched (σ σ' : state) (c : nat) : Prop :=
  ∃ ch ch', chans σ !! c = Some ch ∧ chans σ' !! c = Some ch' ∧
            buffer ch' = buffer ch ∧ open ch' = open ch ∧ mutex ch' = false.

(** The literal scenario of the specification on a channel of capacity 2:
    the statuses of the seven calls, what the two receives left in their
    output slot, and the channel at the end. *)
Definition scenario (σ0 : state) : option (list (option chan_status) * option ptr * option ptr * option chan_t) :=
  '(t0, σ1) ← invoke 1 (PCreate 2) σ0;
  match at_pc t0 with
  | PReturnChan (Some c) =>
      '(t1, σ2) ← invoke 1 (PSend c (Addr 1) true) σ1;
      '(t2, σ3) ← invoke 1 (PSend c (Addr 2) true) σ2;
      '(t3, σ4) ← invoke 1 (PSend c (Addr 3) false) σ3;
      '(t4, σ5) ← invoke 1 (PReceive c (Addr 100) true) σ4;
      '(t5, σ6) ← invoke 1 (PSend c (Addr 3) false) σ5;
      '(t6, σ7) ← invoke 1 (PClose c) σ6;
      '(t7, σ8) ← invoke 1 (PReceive c (Addr 101) false) σ7;
      Some ([returned t1; returned t2; returned t3; returned t4;
             returned t5; returned t6; returned t7],
            stored_at (Addr 100) t4, stored_at (Addr 101) t7, chans σ8 !! c)
  | _ => None
  end.

End Channel.

(** ** Concrete configurations, on the list buffer *)

(** The empty heap. *)
Definition heap0 : @state list_Buffer := State ∅ [].

(** A channel of capacity [cap] that buffers [items], has the semaphore [s]
    registered and the open flag [o], with nobody waiting and its mutex free;
    and the heap with this one channel at address 0. *)
Definition chan_with (cap : N) (items : list ptr) (s : option nat) (o : bool) : @chan_t list_Buffer :=
  @Chan list_Buffer (ListBuffer cap items) s o pthread_cond_init pthread_cond_init false.

Definition heap_with (cap : N) (items : list ptr) (s : option nat) (o : bool) (semaphores : list nat) : @state list_Buffer :=
  State {[ 0 := chan_with cap items s o ]} semaphores.

(** The channel empty with capacity 1 (as [channel_create 1] makes it), full,
    closed with two values left in it, and open with a semaphore registered. *)
Definition heap1 : @state list_Buffer :=
  heap_with 1 [] None true [].

Definition heap_full : @state list_Buffer :=
  heap_with 1 [Addr 1] None true [].

Definition heap_closed : @state list_Buffer :=
  heap_with 2 [Addr 2; Addr 3] None false [].

Definition heap_selecting : @state list_Buffer :=
  heap_with 1 [] (Some 0) true [0].

(** Four threads on the channel of [heap1]: a sender that fills it, a second
    blocking sender, a receiver and a closer. *)
Definition racing : @machine list_Buffer :=
  Machine heap1 [spawn (PSend 0 (Addr 1) true);
                 spawn (PSend 0 (Addr 2) true);
                 spawn (PReceive 0 (Addr 100) false);
                 spawn (PClose 0)].

(** Five threads on an empty channel of capacity 2: two blocking receivers,
    two senders and a closer. *)
Definition closing : @machine list_Buffer :=
  Machine (heap_with 2 [] None true [])
          [spawn (PReceive 0 (Addr 100) true);
           spawn (PReceive 0 (Addr 101) true);
           spawn (PSend 0 (Addr 1) true);
           spawn (PSend 0 (Addr 2) false);
           spawn (PClose 0)].

(** Two channels of capacity 1: the one at address 0 holds a value, the one
    at address 1 is empty.  A receive on the first and a send on the second
    are both ready. *)
Definition heap_two : @state list_Buffer :=
  State {[ 0 := chan_with 1 [Addr 1] None true;
           1 := chan_with 1 [] None true ]} [].

Definition recv_first : select_t := Select 0 false NULL.
Definition send_second : select_t := Select 1 true (Addr 7).

(** A select list with a receive and a send on the same channel. *)
Definition recv_then_send : list select_t :=
  [Select 0 false NULL; Select 0 true (Addr 7)].

(** The channel at address [c] of a machine, and its thread [tid]. *)
Definition chan_of `{B : Buffer} (c : nat) (m : machine) : option chan_t :=
  chans (shared m) !! c.

Definition thread_of `{B : Buffer} (tid : nat) (m : machine) : option thread :=
  threads m !! tid.

(** The heap [σ'] differs from [σ] at most in the condition variables of the
    channel at [c], whose mutex is free. *)
Definition same_but_waiters `{B : Buffer} (σ σ' : state) (c : nat) : Prop :=
  ∃ ch ch', chans σ !! c = Some ch ∧ chans σ' !! c = Some ch' ∧
            buffer ch' = buffer ch ∧ open ch' = open ch ∧
            semaphore ch' = semaphore ch ∧ mutex ch' = false ∧
            sems σ' = sems σ ∧
            ∀ c', c' ≠ c → chans σ' !! c' = chans σ !! c'.

(** The semaphores after the [sem_post] of lines 56-58, 74-76, 115-117,
    133-135 and 163-165 on a channel with registration [s]. *)
Definition posted (s : option nat) (semaphores : list nat) : list nat :=
  match s with
  | Some s => alter S s semaphores
  | None => semaphores
  end.

(** A buffer holds no more values than its capacity; every allocated channel
    has such a buffer. *)
Definition fits `{B : Buffer} (contents : buffer_t → list ptr) (b : buffer_t) : Prop :=
  (N.of_nat (length (contents b)) ≤ buffer_capacity b)%N.

Definition within_capacity `{B : Buffer} (contents : buffer_t → list ptr) (σ : state) : Prop :=
  ∀ c ch, chans σ !! c = Some ch → fits contents (buffer ch).

(** The channels of the first [n] descriptors of a select list. *)
Definition listed (n : nat) (ds : list select_t) : list nat :=
  channel <$> take n ds.

(** The channel map [m'] is [m] with [f] applied to the channels at the
    addresses [cs], and nothing else changed. *)
Definition altered `{B : Buffer} (f : chan_t → chan_t) (cs : list nat) (m m' : gmap nat chan_t) : Prop :=
  ∀ c, m' !! c = if bool_decide (c ∈ cs) then f <$> m !! c else m !! c.

(** Every descriptor below [n] names an allocated channel whose mutex is
    free. *)
Definition listed_free `{B : Buffer} (n : nat) (ds : list select_t) (σ : state) : Prop :=
  ∀ i d, i < n → ds !! i = Some d →
    ∃ ch, chans σ !! channel d = Some ch ∧ mutex ch = false.

(** More concrete configurations on the list buffer: an open channel of
    capacity 1 at address 0 on which one receiver waits, one whose buffer is
    full and on which one sender waits, and a closed one that holds a value
    and on which a receiver has been woken. *)
Definition chan_waiting (cap : N) (items : list ptr) (receivers senders : pthread_cond_t) (o : bool) : @chan_t list_Buffer :=
  @Chan list_Buffer (ListBuffer cap items) None o receivers senders false.

Definition heap_receiver_waits : @state list_Buffer :=
  State {[ 0 := chan_waiting 1 [] (Cond 1 0) pthread_cond_init true ]} [].

Definition heap_sender_waits : @state list_Buffer :=
  State {[ 0 := chan_waiting 1 [Addr 1] pthread_cond_init (Cond 1 0) true ]} [].

Definition heap_closed_woken : @state list_Buffer :=
  State {[ 0 := chan_waiting 1 [Addr 1] (Cond 1 1) pthread_cond_init false ]} [].

(** Two channels of capacity 1, the first empty and the second full, and a
    select list of which nothing is ready on them: a receive on the first and
    a send on the second. *)
Definition heap_idle : @state list_Buffer :=
  State {[ 0 := chan_with 1 [] None true;
           1 := chan_with 1 [Addr 1] None true ]} [].

Definition nothing_ready : list select_t :=
  [Select 0 false NULL; Select 1 true (Addr 7)].

(** Select lists on [heap_two] whose first descriptor is not ready and whose
    second is: a receive, and a send. *)
Definition skip_then_receive : list select_t :=
  [Select 1 false NULL; Select 0 false NULL].

Definition skip_then_send : list select_t :=
  [Select 0 true (Addr 7); Select 1 true (Addr 8)].

(** A machine whose thread 0 sleeps in the [sem_wait] of a select over the
    one channel, which it has left locked; thread 1 is about to create a
    channel. *)
Definition asleep : @machine list_Buffer :=
  Machine (State {[ 0 := @Chan list_Buffer (ListBuffer 1 []) (Some 0) true
                               pthread_cond_init pthread_cond_init true ]} [0])
          [Thread (PSelectWait (Frame 1 500 [Select 0 false NULL] 0)) None [];
           spawn (PCreate 1)].

(** The program points of a [channel_select] that runs with semaphore [s]. *)
Definition uses_semaphore (s : nat) (p : pc) : Prop :=
  match p with
  | PSelectRegister fr _ | PSelectScan fr _ | PSelectWait fr => sem fr = s
  | _ => False
  end.

(** Thread [tid] of the machine stands in the [sem_wait] of a select on the
    semaphore [s], whose count is zero; every channel that has [s]
    registered is locked, and no other thread runs a select with [s]. *)
Definition select_asleep `{B : Buffer} (s tid : nat) (m : machine) : Prop :=
  (∃ t fr, threads m !! tid = Some t ∧ at_pc t = PSelectWait fr ∧ sem fr = s) ∧
  sems (shared m) !! s = Some 0 ∧
  (∀ c ch, chans (shared m) !! c = Some ch → semaphore ch = Some s → mutex ch = true) ∧
  (∀ tid' t', tid' ≠ tid → threads m !! tid' = Some t' → ¬ uses_semaphore s (at_pc t')).

(** * Properties *)

(** The list buffer is a FIFO buffer in the sense of the interface. *)
Lemma list_Buffer_fifo : BufferFifo list_Buffer lb_items.
Proof.
  split; simpl; try done.
  - intros v b Hlt. unfold lb_add.
    destruct (N.ltb_spec (N.of_nat (length (lb_items b))) (lb_capacity b)); [done | lia].
  - intros v b. unfold lb_add.
    destruct (N.of_nat (length (lb_items b)) <? lb_capacity b)%N; simpl; [done | discriminate].
  - intros b x xs Hb. unfold lb_remove. rewrite Hb. done.
Qed.

(** A transition taken apart: every function of [channel.c] unfolded down to
    the tests it makes. *)
Ltac unfold_step H :=
  unfold step_thread, channel_create, channel_send, channel_send_wake,
    channel_receive, channel_receive_wake, channel_close, channel_destroy,
    channel_select, select_register, select_scan, select_wait,
    pthread_mutex_lock, send_wait, send_add, send_done, receive_wait,
    receive_remove, receive_done, ret, pthread_mutex_unlock, keep_locked,
    post_semaphore, sem_post in H.

Section ChannelFacts.
Context {B : Buffer}.

(** ** Locking *)

Lemma unlock_lock (ch : chan_t) : mutex ch = false → set_mutex false (set_mutex true ch) = ch.
Proof. intros Hm. destruct ch; simpl in *. by subst. Qed.

Lemma state_eta (σ : state) : State (chans σ) (sems σ) = σ.
Proof. by destruct σ. Qed.

Lemma lock_free c σ ch k :
  chans σ !! c = Some ch → mutex ch = false →
  pthread_mutex_lock c σ k = k (set_mutex true ch).
Proof. intros Hc Hm. unfold pthread_mutex_lock. by rewrite Hc, Hm. Qed.

(** Locking and unlocking around code that left the channel alone gives the
    heap back as it was. *)
Lemma unlock_unchanged c σ ch :
  chans σ !! c = Some ch → mutex ch = false →
  pthread_mutex_unlock c (set_mutex true ch) σ = σ.
Proof.
  intros Hc Hm. unfold pthread_mutex_unlock.
  rewrite (unlock_lock _ Hm), (insert_id _ _ _ Hc). apply state_eta.
Qed.

(** ** The calls that change nothing *)

Lemma channel_send_wouldblock c data σ t ch :
  chans σ !! c = Some ch → mutex ch = false → open ch = true →
  buffer_capacity (buffer ch) = buffer_current_size (buffer ch) →
  channel_send c data false σ t = Next σ (set_pc (PReturn WOULDBLOCK) t).
Proof.
  intros Hc Hm Ho Hfull. unfold channel_send.
  rewrite (lock_free _ _ _ _ Hc Hm). simpl. rewrite Ho. simpl.
  rewrite Hfull, N.eqb_refl. unfold ret.
  by rewrite (unlock_unchanged _ _ _ Hc Hm).
Qed.

(** C6. A non-blocking [channel_send] on an open channel whose buffer is full
    ([buffer_capacity] equals [buffer_current_size]) returns [WOULDBLOCK] and
    leaves the whole heap, hence the buffer, the open flag and the semaphore
    of the channel, as it was. *)
Theorem send_nonblocking_full c data σ t ch :
  chans σ !! c = Some ch →
  mutex ch = false →
  open ch = true →
  buffer_capacity (buffer ch) = buffer_current_size (buffer ch) →
  channel_send c data false σ t = Next σ (set_pc (PReturn WOULDBLOCK) t).
Proof. apply channel_send_wouldblock. Qed.

Lemma channel_receive_closed c data blocking σ t ch :
  chans σ !! c = Some ch → mutex ch = false → open ch = false →
  channel_receive c data blocking σ t = Next σ (set_pc (PReturn CLOSED_ERROR) t).
Proof.
  intros Hc Hm Ho. unfold channel_receive.
  rewrite (lock_free _ _ _ _ Hc Hm). simpl. rewrite Ho. simpl. unfold ret.
  by rewrite (unlock_unchanged _ _ _ Hc Hm).
Qed.

(** C3. [channel_receive], blocking or not, on a channel that is closed
    returns [CLOSED_ERROR]; the thread has stored nothing and the heap is as
    it was, whatever the buffer holds. *)
Theorem receive_closed c data blocking σ t ch :
  chans σ !! c = Some ch →
  mutex ch = false →
  open ch = false →
  channel_receive c data blocking σ t = Next σ (set_pc (PReturn CLOSED_ERROR) t)
  ∧ stores (set_pc (PReturn CLOSED_ERROR) t) = stores t.
Proof. intros Hc Hm Ho. split; [by eapply channel_receive_closed | done]. Qed.

(** [channel_send] on a closed channel: the same first test. *)
Lemma send_closed c data blocking σ t ch :
  chans σ !! c = Some ch → mutex ch = false → open ch = false →
  channel_send c data blocking σ t = Next σ (set_pc (PReturn CLOSED_ERROR) t).
Proof.
  intros Hc Hm Ho. unfold channel_send.
  rewrite (lock_free _ _ _ _ Hc Hm). simpl. rewrite Ho. simpl. unfold ret.
  by rewrite (unlock_unchanged _ _ _ Hc Hm).
Qed.

(** ** channel_close *)

Lemma channel_close_open c σ t ch :
  chans σ !! c = Some ch → mutex ch = false → open ch = true →
  ∃ σ' ch',
    channel_close c σ t = Next σ' (set_pc (PReturn SUCCESS) t) ∧
    chans σ' !! c = Some ch' ∧
    open ch' = false ∧
    mutex ch' = false ∧
    buffer ch' = buffer ch ∧
    semaphore ch' = semaphore ch ∧
    sems σ' = match semaphore ch with
              | Some s => alter S s (sems σ)
              | None => sems σ
              end.
Proof.
  intros Hc Hm Ho. unfold channel_close.
  rewrite (lock_free _ _ _ _ Hc Hm). simpl. rewrite Ho. simpl. unfold ret.
  eexists _, _. split; [reflexivity|]. simpl.
  rewrite lookup_insert_eq. split; [reflexivity|]. simpl.
  repeat split. unfold post_semaphore. simpl. by destruct (semaphore ch).
Qed.

Lemma channel_close_closed c σ t ch :
  chans σ !! c = Some ch → mutex ch = false → open ch = false →
  channel_close c σ t = Next σ (set_pc (PReturn CLOSED_ERROR) t).
Proof.
  intros Hc Hm Ho. unfold channel_close.
  rewrite (lock_free _ _ _ _ Hc Hm). simpl. rewrite Ho. simpl. unfold ret.
  by rewrite (unlock_unchanged _ _ _ Hc Hm).
Qed.

(** C7. [channel_close] on an open channel returns [SUCCESS], clears the open
    flag and posts the registered semaphore once (the counter of that
    semaphore goes up by one, no other does; nothing is posted if none is
    registered); on a closed channel it returns [CLOSED_ERROR] and the heap
    is as it was. *)
Theorem close_spec c σ t ch :
  chans σ !! c = Some ch →
  mutex ch = false →
  (open ch = true →
   ∃ σ' ch',
     channel_close c σ t = Next σ' (set_pc (PReturn SUCCESS) t) ∧
     chans σ' !! c = Some ch' ∧
     open ch' = false ∧
     buffer ch' = buffer ch ∧
     semaphore ch' = semaphore ch ∧
     sems σ' = match semaphore ch with
               | Some s => alter S s (sems σ)
               | None => sems σ
               end) ∧
  (open ch = false →
   channel_close c σ t = Next σ (set_pc (PReturn CLOSED_ERROR) t)).
Proof.
  intros Hc Hm. split; intros Ho.
  - destruct (channel_close_open c σ t ch Hc Hm Ho)
      as (σ' & ch' & Hclose & Hc' & Ho' & _ & Hb & Hs & Hsems).
    by exists σ', ch'.
  - by eapply channel_close_closed.
Qed.

(** ** channel_receive never reports OTHER_ERROR *)

Lemma receive_remove_not_other c data ch σ t σ' t' :
  receive_remove c data ch σ t = Next σ' t' →
  returned t = None →
  returned t' ≠ Some OTHER_ERROR.
Proof.
  unfold receive_remove, receive_done, ret, store. intros Hr Ht.
  destruct (open ch); [destruct (is_null data) eqn:Hnull|]; simplify_eq; done.
Qed.

Lemma receive_wait_not_other c data ch σ t σ' t' :
  receive_wait c data ch σ t = Next σ' t' →
  returned t = None →
  returned t' ≠ Some OTHER_ERROR.
Proof.
  unfold receive_wait, ret. intros Hr Ht.
  destruct (_ =? _)%N; [destruct (negb _); by simplify_eq|].
  by eapply receive_remove_not_other.
Qed.

(** C9. A [channel_receive] whose output pointer is not null never returns
    [OTHER_ERROR], at its entry or after a wake-up and for every
    implementation of the buffer, hence whatever [buffer_remove] returns: the
    test after the removal looks at the pointer, not at the removed value. *)
Theorem receive_never_other_error spurious c data blocking σ t σ' t' :
  data ≠ NULL →
  at_pc t = PReceive c data blocking ∨ at_pc t = PReceiveWait c data →
  step_thread spurious σ t = Next σ' t' →
  returned t' ≠ Some OTHER_ERROR.
Proof.
  intros Hdata Hpc Hstep.
  assert (returned t = None) as Ht by (unfold returned; by destruct Hpc as [-> | ->]).
  unfold step_thread in Hstep. destruct Hpc as [Hpc | Hpc]; rewrite Hpc in Hstep.
  - destruct spurious; [done|].
    unfold channel_receive, pthread_mutex_lock, ret in Hstep.
    repeat case_match; simplify_eq; try done;
      first [ by eapply receive_wait_not_other | by eapply receive_remove_not_other ].
  - unfold channel_receive_wake, pthread_mutex_lock in Hstep.
    repeat case_match; simplify_eq. by eapply receive_wait_not_other.
Qed.

(** The branch is dead for a null pointer as well: the store through it comes
    first and has no defined behaviour. *)
Lemma receive_remove_null c ch σ t :
  open ch = true → receive_remove c NULL ch σ t = Crash.
Proof. intros Ho. unfold receive_remove. by rewrite Ho. Qed.

(** ** The open flag *)

Lemma lookup_put_closed (m : gmap nat chan_t) c c0 ch0 ch ch' :
  m !! c = Some ch → open ch = false →
  (c0 = c → open ch0 = false) →
  <[c0 := ch0]> m !! c = Some ch' → open ch' = false.
Proof.
  intros Hc Ho H0. destruct (decide (c0 = c)) as [-> | Hne].
  - rewrite lookup_insert_eq. intros [= <-]. by apply H0.
  - rewrite lookup_insert_ne by done. congruence.
Qed.

Lemma step_keeps_closed spurious σ t σ' t' c ch ch' :
  step_thread spurious σ t = Next σ' t' →
  chans σ !! c = Some ch → open ch = false →
  chans σ' !! c = Some ch' → open ch' = false.
Proof.
  intros Hstep Hc Ho.
  unfold_step Hstep.
  repeat case_match; simplify_eq; simpl;
    try (intros; simplify_eq; done);
    try (eapply lookup_put_closed;
         [done | done | intros Heq; rewrite Heq in *; simplify_eq; simpl; congruence]).
  - (* channel_create: the fresh address is not [c] *)
    rewrite lookup_insert_ne; [congruence|].
    intros Heq. apply (is_fresh (dom (chans σ))). rewrite Heq. by apply elem_of_dom.
  - (* channel_destroy *)
    intros Hd. apply lookup_delete_Some in Hd as [_ Hd]. congruence.
Qed.

(** C10. No transition of any operation (create, send, receive, close,
    destroy, select, at the entry or after a wait, under any interleaving)
    sets the open flag again: a channel that is closed before the transition
    and still allocated after it is closed after it. *)
Theorem open_never_set_again spurious σ t σ' t' c ch ch' :
  step_thread spurious σ t = Next σ' t' →
  chans σ !! c = Some ch →
  open ch = false →
  chans σ' !! c = Some ch' →
  open ch' = false.
Proof. apply step_keeps_closed. Qed.

(** Only the [free] of [channel_destroy] takes a channel off the heap, and
    the call returns with it. *)
Lemma step_keeps_allocated spurious σ t σ' t' c :
  step_thread spurious σ t = Next σ' t' →
  is_Some (chans σ !! c) →
  is_Some (chans σ' !! c) ∨ ¬ entry (at_pc t').
Proof.
  intros Hstep Hc.
  unfold_step Hstep.
  repeat case_match; simplify_eq;
    first [ by right; simpl; tauto
          | by left; simpl; rewrite ?lookup_insert_is_Some'; auto ].
Qed.

(** A whole call by a caller on its own: a channel that is closed before the
    call is closed, or freed, after it. *)
Lemma call_keeps_closed fuel : ∀ σ t σ' t' c ch ch',
  call fuel σ t = Returned σ' t' →
  chans σ !! c = Some ch → open ch = false →
  chans σ' !! c = Some ch' → open ch' = false.
Proof.
  induction fuel as [|fuel IH]; intros σ t σ' t' c ch ch' Hcall Hc Ho Hc'; simpl in Hcall.
  - destruct (at_pc t); simplify_eq; congruence.
  - assert (entry (at_pc t) ∨ σ' = σ) as [He | ->].
    { destruct (at_pc t); simpl; auto; right; congruence. }
    + destruct (step_thread false σ t) as [σ1 t1| |] eqn:Hstep;
        [|by destruct (at_pc t)..].
      assert (call fuel σ1 t1 = Returned σ' t') as Hcall1 by (by destruct (at_pc t)).
      destruct (step_keeps_allocated _ _ _ _ _ c Hstep) as [[ch1 Hc1] | Hret]; [by eexists| |].
      * eapply IH; [done | done | | done].
        by eapply step_keeps_closed.
      * assert (σ' = σ1) as ->.
        { destruct fuel; simpl in Hcall1; destruct (at_pc t1); simplify_eq; try done;
            by destruct Hret. }
        by eapply step_keeps_closed.
    + congruence.
Qed.

(** Under any schedule of any threads, none of which destroys the channel: a
    channel that is closed stays allocated and closed. *)
Lemma step_not_destroy spurious σ t σ' t' c :
  step_thread spurious σ t = Next σ' t' → at_pc t' ≠ PDestroy c.
Proof.
  intros Hstep.
  unfold_step Hstep. unfold register_from, scan_from, store in Hstep.
  repeat case_match; simplify_eq; done.
Qed.

Lemma step_keeps_undestroyed spurious σ t σ' t' c :
  step_thread spurious σ t = Next σ' t' →
  at_pc t ≠ PDestroy c →
  is_Some (chans σ !! c) → is_Some (chans σ' !! c).
Proof.
  intros Hstep Hpc Hc.
  unfold_step Hstep.
  repeat case_match; simplify_eq; simpl;
    rewrite ?lookup_insert_is_Some'; auto.
  rewrite lookup_delete_is_Some. split; [congruence | done].
Qed.

Lemma run_keeps_closed sched : ∀ (m m' : machine) c ch,
  run sched m = Some m' →
  Forall (λ t, at_pc t ≠ PDestroy c) (threads m) →
  chan_of c m = Some ch → open ch = false →
  ∃ ch', chan_of c m' = Some ch' ∧ open ch' = false.
Proof.
  induction sched as [|l sched IH]; intros m m' c ch Hrun Hnd Hc Ho; simpl in Hrun.
  - simplify_eq. eauto.
  - destruct (step l m) as [m1|] eqn:Hstep; [|done].
    unfold step in Hstep.
    destruct (match l with Run tid => (false, tid) | Spurious tid => (true, tid) end)
      as [spurious tid].
    destruct (threads m !! tid) as [t|] eqn:Ht; [|done].
    destruct (step_thread spurious (shared m) t) as [σ1 t1| |] eqn:Hst; [|done..].
    simplify_eq.
    pose proof (proj1 (Forall_lookup _ _) Hnd tid t Ht) as Hpc. simpl in Hpc.
    destruct (step_keeps_undestroyed _ _ _ _ _ c Hst Hpc) as [ch1 Hc1]; [by eexists|].
    eapply (IH _ _ c ch1 Hrun); simpl.
    + apply Forall_insert; [done|]. by eapply step_not_destroy.
    + done.
    + by eapply step_keeps_closed.
Qed.

(** ** Calls that return in one transition *)

Lemma invoke_1_inv p σ t σ' :
  entry p → invoke 1 p σ = Some (t, σ') →
  step_thread false σ (spawn p) = Next σ' t ∧ ¬ entry (at_pc t).
Proof.
  intros Hp. unfold invoke. simpl.
  destruct p; try done;
    (destruct (step_thread _ _ _) as [σ1 t1| |]; [|done..];
     destruct (at_pc t1) eqn:Hpc; intros ?; simplify_eq; rewrite Hpc; auto).
Qed.

Lemma invoke_1_intro p σ t σ' st :
  entry p → step_thread false σ (spawn p) = Next σ' t →
  at_pc t = PReturn st → invoke 1 p σ = Some (t, σ').
Proof.
  intros Hp Hstep Hpc. unfold invoke. simpl.
  destruct p; try done; by rewrite Hstep, Hpc.
Qed.

Lemma invoke_create size σ σ' t c :
  channel_create size σ (spawn (PCreate size)) = Next σ' t →
  at_pc t = PReturnChan c → invoke 1 (PCreate size) σ = Some (t, σ').
Proof.
  intros Hstep Hpc. unfold invoke. simpl.
  change (step_thread false σ (spawn (PCreate size)))
    with (channel_create size σ (spawn (PCreate size))).
  by rewrite Hstep, Hpc.
Qed.

End ChannelFacts.

(** ** Calls on a channel with a FIFO buffer *)
Section Fifo.
Context {B : Buffer} (contents : buffer_t → list ptr) {F : BufferFifo B contents}.

Lemma full_iff (ch : chan_t) :
  (buffer_capacity (buffer ch) =? buffer_current_size (buffer ch))%N = true ↔
  N.of_nat (length (contents (buffer ch))) = buffer_capacity (buffer ch).
Proof. rewrite N.eqb_eq, buffer_size_contents. split; congruence. Qed.

Lemma empty_iff (ch : chan_t) :
  (buffer_current_size (buffer ch) =? 0)%N = true ↔ contents (buffer ch) = [].
Proof.
  rewrite N.eqb_eq, buffer_size_contents.
  destruct (contents (buffer ch)); simpl; split; (done || lia).
Qed.

(** The insertion of lines 49-58, on an open channel whose mutex the caller
    holds: [SUCCESS] exactly if [buffer_add] took the value. *)
Lemma send_add_open c v ch σ t cap xs :
  chans σ !! c = Some ch → open ch = true →
  buffer_capacity (buffer ch) = cap → contents (buffer ch) = xs →
  ∃ σ' st,
    send_add c v (set_mutex true ch) σ t = Next σ' (set_pc (PReturn st) t) ∧
    (st = SUCCESS ∨ st = OTHER_ERROR) ∧
    (st = SUCCESS → chan_state contents σ' c cap true (xs ++ [v])) ∧
    ((N.of_nat (length xs) < cap)%N → st = SUCCESS).
Proof.
  intros Hc Ho Hcap Hxs. unfold send_add, send_done, ret. simpl. rewrite Ho.
  destruct (buffer_add v (buffer ch)).1 eqn:Hok; simpl.
  - destruct (buffer_add_true v (buffer ch) Hok) as [Hcont Hcap'].
    eexists _, SUCCESS. split; [done|]. split; [by left|]. split; [|done].
    intros _. eexists. simpl. rewrite lookup_insert_eq. split; [done|]. simpl.
    by rewrite Ho, Hcap', Hcont, Hcap, Hxs.
  - eexists _, OTHER_ERROR. split; [done|]. split; [by right|]. split; [done|].
    intros Hlt. rewrite buffer_add_room in Hok; [done|].
    rewrite buffer_size_contents, Hxs, Hcap. done.
Qed.

(** A send that returns [SUCCESS] on an open channel has appended its value. *)
Lemma send_success c v blocking σ cap xs t σ' :
  chan_state contents σ c cap true xs →
  invoke 1 (PSend c v blocking) σ = Some (t, σ') →
  returned t = Some SUCCESS →
  chan_state contents σ' c cap true (xs ++ [v]).
Proof.
  intros (ch & Hc & Hm & Ho & Hcap & Hxs) Hinv Hret.
  apply invoke_1_inv in Hinv as [Hstep Hfin]; [|done].
  change (channel_send c v blocking σ (spawn (PSend c v blocking)) = Next σ' t) in Hstep.
  unfold channel_send in Hstep.
  rewrite (lock_free _ _ _ _ Hc Hm) in Hstep. simpl in Hstep.
  rewrite Ho in Hstep. simpl in Hstep.
  destruct (send_add_open c v ch σ (spawn (PSend c v blocking)) cap xs)
    as (σa & st & Hadd & _ & Hsucc & _); [done..|].
  unfold send_wait, ret in Hstep. simpl in Hstep. rewrite Ho in Hstep. simpl in Hstep.
  destruct blocking; destruct (_ =? _)%N; simplify_eq; try done;
    rewrite Hadd in Hstep; simplify_eq; apply Hsucc;
    unfold returned in Hret; simpl in Hret; congruence.
Qed.

(** With room in the buffer the send does return [SUCCESS]. *)
Lemma send_room c v blocking σ cap xs :
  chan_state contents σ c cap true xs →
  (N.of_nat (length xs) < cap)%N →
  ∃ t σ', invoke 1 (PSend c v blocking) σ = Some (t, σ') ∧
          returned t = Some SUCCESS ∧
          chan_state contents σ' c cap true (xs ++ [v]).
Proof.
  intros (ch & Hc & Hm & Ho & Hcap & Hxs) Hlt.
  destruct (send_add_open c v ch σ (spawn (PSend c v blocking)) cap xs)
    as (σa & st & Hadd & _ & Hsucc & Hroom); [done..|].
  specialize (Hroom Hlt). subst st.
  exists (set_pc (PReturn SUCCESS) (spawn (PSend c v blocking))), σa.
  split; [|split; [done | by apply Hsucc]].
  eapply invoke_1_intro; [done| |done].
  change (channel_send c v blocking σ (spawn (PSend c v blocking)) = Next σa
            (set_pc (PReturn SUCCESS) (spawn (PSend c v blocking)))).
  unfold channel_send, send_wait.
  rewrite (lock_free _ _ _ _ Hc Hm). simpl. rewrite Ho. simpl.
  assert ((buffer_capacity (buffer ch) =? buffer_current_size (buffer ch))%N = false) as ->.
  { apply N.eqb_neq. rewrite buffer_size_contents, Hxs, Hcap. lia. }
  by destruct blocking.
Qed.

(** The removal of lines 108-117, on an open channel that buffers [x :: xs]:
    [x] goes to the output slot and [xs] stays. *)
Lemma receive_remove_open c data ch σ t cap x xs :
  chans σ !! c = Some ch → open ch = true →
  buffer_capacity (buffer ch) = cap → contents (buffer ch) = x :: xs →
  data ≠ NULL →
  ∃ σ' t',
    receive_remove c data (set_mutex true ch) σ t = Next σ' (set_pc (PReturn SUCCESS) t') ∧
    store data x t = Some t' ∧
    chan_state contents σ' c cap true xs.
Proof.
  intros Hc Ho Hcap Hxs Hdata.
  destruct (buffer_remove_cons (buffer ch) x xs Hxs) as (Hx & Hxs' & Hcap').
  unfold receive_remove, receive_done, ret, store. simpl. rewrite Ho, Hx.
  destruct data; [done| |]; simpl;
    (eexists _, _; split; [done|]; split; [done|];
     eexists; simpl; rewrite lookup_insert_eq; split; [done|]; simpl;
     by rewrite Ho, Hcap', Hxs', Hcap).
Qed.

Lemma stored_at_store data x t t' :
  store data x t = Some t' → stored_at data (set_pc (PReturn SUCCESS) t') = Some x.
Proof.
  unfold store, stored_at. destruct (is_null data); [done|]. intros [= <-]. simpl.
  by rewrite decide_True.
Qed.

(** A receive that returns [SUCCESS] on an open channel has taken the oldest
    buffered value and left it in the output slot. *)
Lemma receive_success c data blocking σ cap xs t σ' :
  chan_state contents σ c cap true xs →
  invoke 1 (PReceive c data blocking) σ = Some (t, σ') →
  returned t = Some SUCCESS →
  ∃ x xs', xs = x :: xs' ∧ stored_at data t = Some x ∧
           chan_state contents σ' c cap true xs'.
Proof.
  intros (ch & Hc & Hm & Ho & Hcap & Hxs) Hinv Hret.
  apply invoke_1_inv in Hinv as [Hstep Hfin]; [|done].
  change (channel_receive c data blocking σ (spawn (PReceive c data blocking)) = Next σ' t) in Hstep.
  unfold channel_receive in Hstep.
  rewrite (lock_free _ _ _ _ Hc Hm) in Hstep. simpl in Hstep.
  rewrite Ho in Hstep. simpl in Hstep.
  unfold receive_wait, ret in Hstep. simpl in Hstep. rewrite Ho in Hstep. simpl in Hstep.
  destruct (buffer_current_size (buffer ch) =? 0)%N eqn:Hsz.
  { destruct blocking; simplify_eq; done. }
  destruct xs as [|x xs'].
  { apply empty_iff in Hxs. congruence. }
  destruct (decide (data = NULL)) as [-> | Hdata].
  { rewrite receive_remove_null in Hstep by done. by destruct blocking. }
  destruct (receive_remove_open c data ch σ (spawn (PReceive c data blocking)) cap x xs')
    as (σr & tr & Hrem & Hst & Hstate); [done..|].
  exists x, xs'. split; [done|].
  destruct blocking; rewrite Hrem in Hstep; simplify_eq;
    (split; [by eapply stored_at_store | done]).
Qed.

(** With a value in the buffer and an output slot to write to the receive
    does return [SUCCESS]. *)
Lemma receive_some c data blocking σ cap x xs :
  chan_state contents σ c cap true (x :: xs) →
  data ≠ NULL →
  ∃ t σ', invoke 1 (PReceive c data blocking) σ = Some (t, σ') ∧
          returned t = Some SUCCESS ∧ stored_at data t = Some x ∧
          chan_state contents σ' c cap true xs.
Proof.
  intros (ch & Hc & Hm & Ho & Hcap & Hxs) Hdata.
  destruct (receive_remove_open c data ch σ (spawn (PReceive c data blocking)) cap x xs)
    as (σr & tr & Hrem & Hst & Hstate); [done..|].
  exists (set_pc (PReturn SUCCESS) tr), σr.
  split; [|split; [done | split; [by eapply stored_at_store | done]]].
  eapply invoke_1_intro; [done| |done].
  change (channel_receive c data blocking σ (spawn (PReceive c data blocking)) =
          Next σr (set_pc (PReturn SUCCESS) tr)).
  unfold channel_receive, receive_wait.
  rewrite (lock_free _ _ _ _ Hc Hm). simpl. rewrite Ho. simpl.
  assert ((buffer_current_size (buffer ch) =? 0)%N = false) as ->.
  { apply not_true_is_false. rewrite empty_iff. congruence. }
  by destruct blocking.
Qed.

(** ** FIFO delivery *)

Lemma sends_append c ss : ∀ σ cap xs σ',
  chan_state contents σ c cap true xs →
  sends c ss σ = Some σ' →
  chan_state contents σ' c cap true (xs ++ ss.*1).
Proof.
  induction ss as [|[v blocking] ss IH]; intros σ cap xs σ' Hst Hs; simpl in *.
  - rewrite app_nil_r. by simplify_eq.
  - destruct (invoke 1 (PSend c v blocking) σ) as [[t σ1]|] eqn:Hinv; [|done].
    case_decide as Hret; [|done].
    rewrite cons_middle, app_assoc. eapply IH; [|done].
    by eapply send_success.
Qed.

Lemma receives_prefix c rs : ∀ σ cap xs outs σ',
  chan_state contents σ c cap true xs →
  receives c rs σ = Some (outs, σ') →
  length rs ≤ length xs ∧
  outs = Some <$> take (length rs) xs ∧
  chan_state contents σ' c cap true (drop (length rs) xs).
Proof.
  induction rs as [|[data blocking] rs IH]; intros σ cap xs outs σ' Hst Hr; simpl in *.
  - simplify_eq. split; [lia|done].
  - destruct (invoke 1 (PReceive c data blocking) σ) as [[t σ1]|] eqn:Hinv; [|done].
    case_decide as Hret; [|done].
    destruct (receives c rs σ1) as [[outs1 σ2]|] eqn:Hrs; [|done]. simplify_eq.
    destruct (receive_success _ _ _ _ _ _ _ _ Hst Hinv Hret) as (x & xs' & -> & Hout & Hst1).
    destruct (IH _ _ _ _ _ Hst1 Hrs) as (Hlen & -> & Hst2).
    simpl. rewrite Hout. split; [lia|done].
Qed.

(** Delivery in the order of sending, for calls made one after the other,
    each of which returns in its first transition: on an open channel with an
    empty buffer, if the calls that send [v1..vn] (blocking or not) return
    [SUCCESS] with no receive in between, then [n] receives that return
    [SUCCESS] (blocking or not) leave [v1..vn], in this order, in their
    output slots.  A call that waited is not among these. *)
Theorem fifo_delivery c cap σ0 ss σ1 rs outs σ2 :
  chan_state contents σ0 c cap true [] →
  sends c ss σ0 = Some σ1 →
  receives c rs σ1 = Some (outs, σ2) →
  length rs = length ss →
  outs = Some <$> ss.*1.
Proof.
  intros Hst Hs Hr Hlen.
  pose proof (sends_append _ _ _ _ _ _ Hst Hs) as Hst1. simpl in Hst1.
  destruct (receives_prefix _ _ _ _ _ _ _ Hst1 Hr) as (_ & -> & _).
  rewrite Hlen, <- (length_fmap fst ss). by rewrite firstn_all.
Qed.

(** The same with values in the buffer at the start and any number of
    receives: they come first, and the receives take a prefix. *)
Lemma fifo_delivery_prefix c cap σ0 xs ss σ1 rs outs σ2 :
  chan_state contents σ0 c cap true xs →
  sends c ss σ0 = Some σ1 →
  receives c rs σ1 = Some (outs, σ2) →
  outs = Some <$> take (length rs) (xs ++ ss.*1).
Proof.
  intros Hst Hs Hr.
  pose proof (sends_append _ _ _ _ _ _ Hst Hs) as Hst1.
  by destruct (receives_prefix _ _ _ _ _ _ _ Hst1 Hr) as (_ & -> & _).
Qed.

(** The receives cannot outnumber the buffered values, and as long as the
    buffer has room the sends do succeed: the statement above is not empty. *)
Lemma sends_room c ss : ∀ σ cap xs,
  chan_state contents σ c cap true xs →
  (N.of_nat (length xs + length ss) ≤ cap)%N →
  ∃ σ', sends c ss σ = Some σ'.
Proof.
  induction ss as [|[v blocking] ss IH]; intros σ cap xs Hst Hlen; simpl in *.
  - eauto.
  - destruct (send_room c v blocking σ cap xs Hst) as (t & σ1 & -> & Hret & Hst1); [lia|].
    rewrite decide_True by done. eapply IH; [done|]. rewrite length_app. simpl. lia.
Qed.

Lemma receives_some c rs : ∀ σ cap xs,
  chan_state contents σ c cap true xs →
  length rs ≤ length xs →
  Forall (λ r, r.1 ≠ NULL) rs →
  ∃ outs σ', receives c rs σ = Some (outs, σ').
Proof.
  induction rs as [|[data blocking] rs IH]; intros σ cap xs Hst Hlen Hnn; simpl in *.
  - eauto.
  - destruct xs as [|x xs]; [simpl in Hlen; lia|].
    apply Forall_cons in Hnn as [Hd Hnn]. simpl in Hd.
    destruct (receive_some c data blocking σ cap x xs Hst Hd) as (t & σ1 & -> & Hret & _ & Hst1).
    rewrite decide_True by done.
    destruct (IH σ1 cap xs Hst1) as (outs & σ' & ->); [simpl in Hlen; lia | done |]. eauto.
Qed.

(** ** The literal scenario *)

Lemma create_fresh size σ :
  size ≠ 0%N →
  ∃ c t σ', invoke 1 (PCreate size) σ = Some (t, σ') ∧
            at_pc t = PReturnChan (Some c) ∧
            chan_state contents σ' c size true [].
Proof.
  intros Hsize. apply N.eqb_neq in Hsize.
  exists (fresh (dom (chans σ))),
         (set_pc (PReturnChan (Some (fresh (dom (chans σ))))) (spawn (PCreate size))).
  eexists. split; [|split; [reflexivity|]].
  { eapply invoke_create; [|reflexivity]. unfold channel_create. by rewrite Hsize. }
  eexists. simpl. rewrite lookup_insert_eq. split; [done|]. simpl.
  by rewrite buffer_create_capacity, buffer_create_contents.
Qed.

Lemma send_full c v σ cap xs :
  chan_state contents σ c cap true xs →
  N.of_nat (length xs) = cap →
  invoke 1 (PSend c v false) σ =
    Some (set_pc (PReturn WOULDBLOCK) (spawn (PSend c v false)), σ).
Proof.
  intros (ch & Hc & Hm & Ho & Hcap & Hxs) Hfull.
  eapply invoke_1_intro; [done| |done].
  apply (channel_send_wouldblock _ _ _ _ _ Hc Hm Ho).
  rewrite buffer_size_contents. congruence.
Qed.

(** The capacity bound: after as many successful sends as the channel has
    capacity, with no receive, a further non-blocking send returns
    [WOULDBLOCK] and changes nothing. *)
Lemma capacity_bound c v σ0 cap ss σ1 :
  chan_state contents σ0 c cap true [] →
  sends c ss σ0 = Some σ1 →
  N.of_nat (length ss) = cap →
  invoke 1 (PSend c v false) σ1 =
    Some (set_pc (PReturn WOULDBLOCK) (spawn (PSend c v false)), σ1).
Proof.
  intros Hst Hs Hlen.
  pose proof (sends_append _ _ _ _ _ _ Hst Hs) as Hst1. simpl in Hst1.
  eapply send_full; [done|]. by rewrite length_fmap.
Qed.

Lemma close_open c σ cap xs :
  chan_state contents σ c cap true xs →
  ∃ t σ', invoke 1 (PClose c) σ = Some (t, σ') ∧
          returned t = Some SUCCESS ∧
          chan_state contents σ' c cap false xs.
Proof.
  intros (ch & Hc & Hm & Ho & Hcap & Hxs).
  destruct (channel_close_open c σ (spawn (PClose c)) ch Hc Hm Ho)
    as (σ' & ch' & Hclose & Hc' & Ho' & Hm' & Hb & _).
  eexists _, σ'. split; [by eapply invoke_1_intro|]. split; [done|].
  exists ch'. by rewrite Hb.
Qed.

Lemma receive_on_closed c data blocking σ cap xs :
  chan_state contents σ c cap false xs →
  invoke 1 (PReceive c data blocking) σ =
    Some (set_pc (PReturn CLOSED_ERROR) (spawn (PReceive c data blocking)), σ).
Proof.
  intros (ch & Hc & Hm & Ho & Hcap & Hxs).
  eapply invoke_1_intro; [done| |done].
  by apply (channel_receive_closed _ _ _ _ _ _ Hc Hm Ho).
Qed.

(** C4. On a freshly created channel of capacity 2 the calls [send(1,
    blocking)], [send(2, blocking)], [send(3, non-blocking)],
    [receive(blocking)], [send(3, non-blocking)], [close()],
    [receive(non-blocking)] return [SUCCESS], [SUCCESS], [WOULDBLOCK],
    [SUCCESS] with value 1 in the output slot, [SUCCESS], [SUCCESS] and
    [CLOSED_ERROR] with nothing in the output slot; at the end the channel is
    closed and buffers the values 2 and 3. *)
Theorem literal_scenario σ0 :
  ∃ ch,
    scenario σ0 =
      Some ([Some SUCCESS; Some SUCCESS; Some WOULDBLOCK; Some SUCCESS;
             Some SUCCESS; Some SUCCESS; Some CLOSED_ERROR],
            Some (Addr 1), None, Some ch) ∧
    contents (buffer ch) = [Addr 2; Addr 3] ∧
    open ch = false.
Proof.
  unfold scenario.
  destruct (create_fresh 2 σ0) as (c & t0 & σ1 & -> & Hpc & Hst1); [done|].
  simpl. rewrite Hpc.
  destruct (send_room c (Addr 1) true _ _ _ Hst1) as (t1 & σ2 & Hi1 & Hr1 & Hst2);
    [simpl; lia|]. simpl in Hst2.
  destruct (send_room c (Addr 2) true _ _ _ Hst2) as (t2 & σ3 & Hi2 & Hr2 & Hst3);
    [simpl; lia|]. simpl in Hst3.
  pose proof (send_full c (Addr 3) _ _ _ Hst3 eq_refl) as Hi3.
  destruct (receive_some c (Addr 100) true _ _ _ _ Hst3) as (t4 & σ5 & Hi4 & Hr4 & Ho4 & Hst5);
    [done|].
  destruct (send_room c (Addr 3) false _ _ _ Hst5) as (t5 & σ6 & Hi5 & Hr5 & Hst6);
    [simpl; lia|]. simpl in Hst6.
  destruct (close_open c _ _ _ Hst6) as (t6 & σ7 & Hi6 & Hr6 & Hst7).
  pose proof (receive_on_closed c (Addr 101) false _ _ _ Hst7) as Hi7.
  destruct Hst7 as (ch & Hc & _ & Ho & _ & Hxs). exists ch.
  rewrite Hi1. simpl. rewrite Hi2. simpl. rewrite Hi3. simpl. rewrite Hi4. simpl.
  rewrite Hi5. simpl. rewrite Hi6. simpl. rewrite Hi7. simpl.
  by rewrite Hr1, Hr2, Hr4, Ho4, Hr5, Hr6, Hc.
Qed.

End Fifo.

(** ** Where a blocked call meets a close *)
Section Wake.
Context {B : Buffer}.

(** A sender that wakes up on a closed channel whose buffer is still full
    returns [CLOSED_ERROR] and the buffer is as it was. *)
Lemma send_wake_closed_full spurious c data σ t ch cv :
  chans σ !! c = Some ch → mutex ch = false → open ch = false →
  buffer_capacity (buffer ch) = buffer_current_size (buffer ch) →
  cond_wake spurious (send ch) = Some cv →
  channel_send_wake spurious c data σ t =
    Next (State (<[c := set_send cv ch]> (chans σ)) (sems σ))
         (set_pc (PReturn CLOSED_ERROR) t).
Proof.
  intros Hc Hm Ho Hfull Hcv. unfold channel_send_wake. rewrite Hc, Hcv.
  rewrite (lock_free _ _ _ _ Hc Hm). unfold send_wait. simpl.
  rewrite Hfull, N.eqb_refl, Ho. simpl. unfold ret, pthread_mutex_unlock.
  do 3 f_equal. destruct ch; simpl in *. by subst.
Qed.

(** A sender that wakes up on a closed channel whose buffer has room again
    skips the insertion (line 49) and falls through to [return SUCCESS]: the
    buffer is as it was. *)
Lemma send_wake_closed_room spurious c data σ t ch cv :
  chans σ !! c = Some ch → mutex ch = false → open ch = false →
  buffer_capacity (buffer ch) ≠ buffer_current_size (buffer ch) →
  cond_wake spurious (send ch) = Some cv →
  ∃ σ' ch',
    channel_send_wake spurious c data σ t = Next σ' (set_pc (PReturn SUCCESS) t) ∧
    chans σ' !! c = Some ch' ∧ buffer ch' = buffer ch ∧ open ch' = false.
Proof.
  intros Hc Hm Ho Hroom Hcv. unfold channel_send_wake. rewrite Hc, Hcv.
  rewrite (lock_free _ _ _ _ Hc Hm). unfold send_wait, send_add, send_done. simpl.
  apply N.eqb_neq in Hroom. rewrite Hroom, Ho. unfold ret.
  eexists _, _. split; [done|]. simpl. rewrite lookup_insert_eq. by split.
Qed.

(** The receiver's side is the same: woken on a closed channel that holds
    data it returns [SUCCESS] and stores nothing. *)
Lemma receive_wake_closed_data spurious c data σ t ch cv :
  chans σ !! c = Some ch → mutex ch = false → open ch = false →
  buffer_current_size (buffer ch) ≠ 0%N →
  cond_wake spurious (recv ch) = Some cv →
  ∃ σ' ch',
    channel_receive_wake spurious c data σ t = Next σ' (set_pc (PReturn SUCCESS) t) ∧
    chans σ' !! c = Some ch' ∧ buffer ch' = buffer ch ∧ open ch' = false.
Proof.
  intros Hc Hm Ho Hdata Hcv. unfold channel_receive_wake. rewrite Hc, Hcv.
  rewrite (lock_free _ _ _ _ Hc Hm). unfold receive_wait, receive_remove, receive_done. simpl.
  apply N.eqb_neq in Hdata. rewrite Hdata, Ho. unfold ret.
  eexists _, _. split; [done|]. simpl. rewrite lookup_insert_eq. by split.
Qed.

(** After the close nothing gets into the buffer through a send, entered or
    woken, whatever the send returns. *)
Lemma send_after_close spurious c data blocking σ t σ' t' ch :
  at_pc t = PSend c data blocking ∨ at_pc t = PSendWait c data →
  chans σ !! c = Some ch → open ch = false →
  step_thread spurious σ t = Next σ' t' →
  ∃ ch', chans σ' !! c = Some ch' ∧ buffer ch' = buffer ch ∧ open ch' = false.
Proof.
  intros Hpc Hc Ho Hstep. unfold step_thread in Hstep.
  destruct Hpc as [Hpc | Hpc]; rewrite Hpc in Hstep.
  - destruct spurious; [done|].
    unfold channel_send, pthread_mutex_lock in Hstep. rewrite Hc in Hstep.
    destruct (mutex ch) eqn:Hm; [done|]. simpl in Hstep. rewrite Ho in Hstep.
    unfold ret in Hstep. simpl in Hstep. simplify_eq.
    eexists. simpl. rewrite lookup_insert_eq. by split.
  - unfold channel_send_wake, pthread_mutex_lock in Hstep. rewrite Hc in Hstep.
    destruct (cond_wake spurious (send ch)) as [cv|]; [|done].
    destruct (mutex ch) eqn:Hm; [done|].
    unfold send_wait, send_add, send_done, ret in Hstep. simpl in Hstep.
    rewrite Ho in Hstep. simpl in Hstep.
    destruct (_ =? _)%N; simplify_eq;
      (eexists; simpl; rewrite lookup_insert_eq; by split).
Qed.

(** After the close nothing leaves the buffer through a receive, entered or
    woken: the transition stores nothing and the buffer is as it was. *)
Lemma receive_after_close spurious c data blocking σ t σ' t' ch :
  at_pc t = PReceive c data blocking ∨ at_pc t = PReceiveWait c data →
  chans σ !! c = Some ch → open ch = false →
  step_thread spurious σ t = Next σ' t' →
  stores t' = stores t ∧
  ∃ ch', chans σ' !! c = Some ch' ∧ buffer ch' = buffer ch ∧ open ch' = false.
Proof.
  intros Hpc Hc Ho Hstep. unfold step_thread in Hstep.
  destruct Hpc as [Hpc | Hpc]; rewrite Hpc in Hstep.
  - destruct spurious; [done|].
    unfold channel_receive, pthread_mutex_lock in Hstep. rewrite Hc in Hstep.
    destruct (mutex ch) eqn:Hm; [done|]. simpl in Hstep. rewrite Ho in Hstep.
    unfold ret in Hstep. simpl in Hstep. simplify_eq.
    split; [done|]. eexists. simpl. rewrite lookup_insert_eq. by split.
  - unfold channel_receive_wake, pthread_mutex_lock in Hstep. rewrite Hc in Hstep.
    destruct (cond_wake spurious (recv ch)) as [cv|]; [|done].
    destruct (mutex ch) eqn:Hm; [done|].
    unfold receive_wait, receive_remove, receive_done, ret in Hstep. simpl in Hstep.
    rewrite Ho in Hstep. simpl in Hstep.
    destruct (_ =? _)%N; simplify_eq;
      (split; [done|]; eexists; simpl; rewrite lookup_insert_eq; by split).
Qed.

(** What the scan of [channel_select] hands to [channel_send] is the address
    of the descriptor's [data] field, whatever the field holds. *)
Lemma select_scan_send fr i σ t σ' t' c v blocking :
  select_scan fr i σ t = Next σ' t' →
  at_pc t' = PSend c v blocking →
  v = DataField (channel_list fr) i ∧ blocking = true ∧ selected_index t' = Some i.
Proof.
  intros Hscan Hpc. unfold select_scan, pthread_mutex_lock, scan_from in Hscan.
  repeat case_match; simplify_eq; simpl in *; by simplify_eq.
Qed.

End Wake.

(** ** The scan of channel_select *)
Section Select.
Context {B : Buffer}.

Lemma advance_add n m σ t :
  advance (n + m) σ t =
  match advance n σ t with
  | Next σ' t' => advance m σ' t'
  | o => o
  end.
Proof.
  revert σ t. induction n as [|n IH]; intros σ t; simpl; [done|].
  destruct (step_thread false σ t); [apply IH | done | done].
Qed.

Lemma ready_untouched σ σ' d :
  untouched σ σ' (channel d) → ready_in σ' d = ready_in σ d.
Proof.
  intros (ch & ch' & Hc & Hc' & Hb & _). unfold ready_in, ready.
  by rewrite Hc, Hc', Hb.
Qed.

Lemma untouched_put σ σ' c c0 ch0 ch' :
  untouched σ σ' c →
  chans σ' !! c0 = Some ch0 →
  (c0 = c → buffer ch' = buffer ch0 ∧ open ch' = open ch0 ∧ mutex ch' = false) →
  untouched σ (State (<[c0 := ch']> (chans σ')) (sems σ')) c.
Proof.
  intros (ch & ch1 & Hc & Hc1 & Hb & Ho & Hm) Hc0 Hsame.
  destruct (decide (c0 = c)) as [-> | Hne].
  - destruct Hsame as (Hb' & Ho' & Hm'); [done|]. simplify_eq.
    exists ch, ch'. simpl. rewrite lookup_insert_eq. repeat split; congruence.
  - exists ch, ch1. simpl. by rewrite lookup_insert_ne.
Qed.

(** The first loop, lines 208-212: from index [i] it registers the semaphore
    with the listed channels, if their mutexes are free, and leaves them as
    they were otherwise. *)
Lemma register_loop fr σ n : ∀ i σ' t,
  i + n = channel_count fr →
  channel_count fr ≤ length (entries fr) →
  (∀ j d, j < channel_count fr → entries fr !! j = Some d → untouched σ σ' (channel d)) →
  at_pc t = register_from fr i →
  ∃ σ'' t'',
    advance n σ' t = Next σ'' t'' ∧
    (∀ j d, j < channel_count fr → entries fr !! j = Some d → untouched σ σ'' (channel d)) ∧
    at_pc t'' = scan_from fr 0 ∧
    selected_index t'' = selected_index t.
Proof.
  induction n as [|n IH]; intros i σ' t Hin Hlen Hinv Hpc.
  - exists σ', t. split; [done|]. split; [done|]. split; [|done].
    rewrite Hpc. unfold register_from.
    destruct (Nat.ltb_spec i (channel_count fr)); [lia | done].
  - assert (i < channel_count fr) as Hi by lia.
    destruct (lookup_lt_is_Some_2 (entries fr) i) as [d Hd]; [lia|].
    destruct (Hinv i d Hi Hd) as (ch & ch' & Hc & Hc' & Hb & Ho & Hm).
    unfold register_from in Hpc. apply Nat.ltb_lt in Hi as Hi'. rewrite Hi' in Hpc.
    simpl. unfold step_thread. rewrite Hpc. unfold select_register. rewrite Hd.
    rewrite (lock_free _ _ _ _ Hc' Hm).
    destruct (IH (S i) (pthread_mutex_unlock (channel d)
                          (set_semaphore (Some (sem fr)) (set_mutex true ch')) σ')
                 (set_pc (register_from fr (S i)) t))
      as (σ'' & t'' & Hadv & Hinv' & Hpc' & Hsel); [lia | done | | done |].
    { intros j dj Hj Hdj. unfold pthread_mutex_unlock.
      eapply untouched_put; [by eapply Hinv | done | done]. }
    exists σ'', t''. by rewrite Hadv.
Qed.

Lemma distinct_channels (ds : list select_t) k i j di dj :
  NoDup (channel <$> take (S k) ds) →
  i ≤ k → j ≤ k →
  ds !! i = Some di → ds !! j = Some dj →
  channel di = channel dj → i = j.
Proof.
  intros Hnd Hi Hj Hdi Hdj Heq.
  eapply (NoDup_lookup _ i j (channel di) Hnd);
    rewrite list_lookup_fmap, lookup_take_lt by lia.
  - by rewrite Hdi.
  - by rewrite Hdj, Heq.
Qed.

(** The scan, lines 215-232, over descriptors that are not ready: each keeps
    its channel locked, so the scan gets from [j] to [k] if the channels of
    the descriptors [j..k] are pairwise different. *)
Lemma scan_loop fr σ k n : ∀ j σ' t,
  j + n = k →
  k < channel_count fr →
  channel_count fr ≤ length (entries fr) →
  (∀ i d, j ≤ i ≤ k → entries fr !! i = Some d → untouched σ σ' (channel d)) →
  (∀ i d, i < k → entries fr !! i = Some d → ready_in σ d = false) →
  NoDup (channel <$> take (S k) (entries fr)) →
  at_pc t = PSelectScan fr j →
  ∃ σ'' t'',
    advance n σ' t = Next σ'' t'' ∧
    (∀ d, entries fr !! k = Some d → untouched σ σ'' (channel d)) ∧
    at_pc t'' = PSelectScan fr k ∧
    selected_index t'' = selected_index t.
Proof.
  induction n as [|n IH]; intros j σ' t Hjn Hk Hlen Hinv Hnr Hnd Hpc.
  - assert (j = k) as -> by lia. exists σ', t. split; [done|]. split; [|done].
    intros d Hd. apply (Hinv k d); [lia | done].
  - assert (j < k) as Hj by lia.
    destruct (lookup_lt_is_Some_2 (entries fr) j) as [d Hd]; [lia|].
    pose proof (Hinv j d ltac:(lia) Hd) as Hun.
    pose proof (ready_untouched _ _ _ Hun) as Hready.
    rewrite (Hnr j d Hj Hd) in Hready.
    destruct Hun as (ch & ch' & Hc & Hc' & Hb & Ho & Hm).
    unfold ready_in in Hready. rewrite Hc' in Hready. unfold ready in Hready.
    simpl. unfold step_thread. rewrite Hpc. unfold select_scan. rewrite Hd.
    rewrite (lock_free _ _ _ _ Hc' Hm). simpl.
    assert (scan_from fr (S j) = PSelectScan fr (S j)) as Hnext.
    { unfold scan_from. destruct (Nat.ltb_spec (S j) (channel_count fr)); [done | lia]. }
    assert (∀ i di, S j ≤ i ≤ k → entries fr !! i = Some di →
              untouched σ (keep_locked (channel d) (set_mutex true ch') σ') (channel di)) as Hinv'.
    { intros i di Hi Hdi. destruct (Hinv i di ltac:(lia) Hdi) as (c1 & c1' & ? & ? & ? & ? & ?).
      exists c1, c1'. unfold keep_locked. simpl. rewrite lookup_insert_ne; [done|].
      intros Heq.
      pose proof (distinct_channels _ k j i d di Hnd ltac:(lia) ltac:(lia) Hd Hdi Heq).
      lia. }
    destruct (IH (S j) (keep_locked (channel d) (set_mutex true ch') σ')
                 (set_pc (PSelectScan fr (S j)) t))
      as (σ'' & t'' & Hadv & Hun' & Hpc' & Hsel);
      [lia | done | done | done | done | done | done |].
    exists σ'', t''.
    destruct (is_send d); rewrite Hready, Hnext; simpl; by rewrite Hadv.
Qed.

(** Where the scan finds the first ready descriptor.  If the listed channels are allocated with
    their mutexes free, descriptor [k] is the first that is ready, and the
    channels of the descriptors [0..k] are pairwise different, then
    [channel_select], after its [2 + count + k] transitions, has written
    [k] to [selected_index] and stands at the entry of the blocking send or
    receive on the channel of descriptor [k], whose buffer and open flag are
    as they were. *)
Lemma select_first_ready count lst ds σ k d :
  count ≤ length ds →
  k < count →
  ds !! k = Some d →
  (∀ i di, i < count → ds !! i = Some di →
     ∃ ch, chans σ !! channel di = Some ch ∧ mutex ch = false) →
  ready_in σ d = true →
  (∀ i di, i < k → ds !! i = Some di → ready_in σ di = false) →
  NoDup (channel <$> take (S k) ds) →
  ∃ σ' t',
    advance (2 + count + k) σ (spawn (PSelect count lst ds)) = Next σ' t' ∧
    selected_index t' = Some k ∧
    at_pc t' = (if is_send d
                then PSend (channel d) (DataField lst k) true
                else PReceive (channel d) (DataField lst k) true) ∧
    untouched σ σ' (channel d).
Proof.
  intros Hlen Hk Hd Hfree Hready Hnr Hnd.
  set (fr := Frame count lst ds (length (sems σ))).
  set (σ0 := State (chans σ) (sems σ ++ [0])).
  assert (∀ j dj, j < channel_count fr → entries fr !! j = Some dj →
            untouched σ σ0 (channel dj)) as Hinv0.
  { intros j dj Hj Hdj. destruct (Hfree j dj Hj Hdj) as (ch & Hc & Hm).
    by exists ch, ch. }
  destruct (register_loop fr σ count 0 σ0 (set_pc (register_from fr 0) (spawn (PSelect count lst ds))))
    as (σ1 & t1 & Hadv1 & Hinv1 & Hpc1 & Hsel1); [done..|].
  assert (at_pc t1 = PSelectScan fr 0) as Hpc1'.
  { rewrite Hpc1. unfold scan_from. simpl.
    destruct (Nat.ltb_spec 0 count); [done | lia]. }
  destruct (scan_loop fr σ k k 0 σ1 t1)
    as (σ2 & t2 & Hadv2 & Hun2 & Hpc2 & Hsel2); [done..| | done | done | done |].
  { intros i di Hi Hdi. apply (Hinv1 i di); [simpl; lia | done]. }
  specialize (Hun2 d Hd).
  pose proof (ready_untouched _ _ _ Hun2) as Hready2. rewrite Hready in Hready2.
  destruct Hun2 as (ch & ch2 & Hc & Hc2 & Hb & Ho & Hm).
  unfold ready_in in Hready2. rewrite Hc2 in Hready2. unfold ready in Hready2.
  replace (2 + count + k) with (S (count + (k + 1))) by lia.
  change (advance (S (count + (k + 1))) σ (spawn (PSelect count lst ds)))
    with (advance (count + (k + 1)) σ0
            (set_pc (register_from fr 0) (spawn (PSelect count lst ds)))).
  rewrite advance_add, Hadv1, advance_add, Hadv2. simpl.
  unfold step_thread. rewrite Hpc2. unfold select_scan. simpl entries. rewrite Hd.
  rewrite (lock_free _ _ _ _ Hc2 Hm). simpl.
  assert (untouched σ (pthread_mutex_unlock (channel d) (set_mutex true ch2) σ2) (channel d)) as Hun.
  { exists ch, (set_mutex false (set_mutex true ch2)). unfold pthread_mutex_unlock. simpl.
    by rewrite lookup_insert_eq. }
  destruct (is_send d); rewrite Hready2; simpl; eexists _, _; (split; [done|]); done.
Qed.

(** In particular a descriptor that is ready at index 0 wins, whatever comes
    after it: the tie-break of the specification. *)
Lemma select_first_wins count lst d ds σ :
  S (length ds) = count →
  (∀ i di, i < count → (d :: ds) !! i = Some di →
     ∃ ch, chans σ !! channel di = Some ch ∧ mutex ch = false) →
  ready_in σ d = true →
  ∃ σ' t',
    advance (2 + count) σ (spawn (PSelect count lst (d :: ds))) = Next σ' t' ∧
    selected_index t' = Some 0 ∧
    at_pc t' = (if is_send d
                then PSend (channel d) (DataField lst 0) true
                else PReceive (channel d) (DataField lst 0) true) ∧
    untouched σ σ' (channel d).
Proof.
  intros Hlen Hfree Hready.
  destruct (select_first_ready count lst (d :: ds) σ 0 d)
    as (σ' & t' & Hadv & ?); try done.
  - simpl. lia.
  - lia.
  - intros i di Hi. lia.
  - simpl. apply NoDup_singleton.
  - exists σ', t'. by rewrite Nat.add_0_r in Hadv.
Qed.

End Select.

(** ** Runs on the list buffer *)
Section Runs.
Local Existing Instance list_Buffer.

(** [heap1] is what [channel_create(1)] makes of the empty heap. *)
Lemma heap1_created :
  call 1 heap0 (spawn (PCreate 1)) =
    Returned heap1 (set_pc (PReturnChan (Some 0)) (spawn (PCreate 1))).
Proof. vm_compute. reflexivity. Qed.

(** C1. The claim fails on this run.  The channel has capacity 1.  Thread 0
    fills it; thread 1 calls a blocking send of [Addr 2], finds the buffer
    full and the channel open and waits at line 46.  Thread 2 receives, which
    signals the waiter, and thread 3 closes the channel before the waiter has
    the mutex again.  Thread 1 then leaves the loop (the buffer is not full),
    skips the insertion (the channel is closed) and returns [SUCCESS]: the
    buffer is empty and [Addr 2] was never in it.  No spurious wake-up is
    involved. *)
Theorem blocked_send_success_without_insert :
  ∃ m1 m2 m3 : machine,
    run [Run 0; Run 1] racing = Some m1 ∧
    at_pc <$> thread_of 1 m1 = Some (PSendWait 0 (Addr 2)) ∧
    open <$> chan_of 0 m1 = Some true ∧
    lb_items ∘ buffer <$> chan_of 0 m1 = Some [Addr 1] ∧
    run [Run 2; Run 3] m1 = Some m2 ∧
    open <$> chan_of 0 m2 = Some false ∧
    run [Run 1] m2 = Some m3 ∧
    thread_of 1 m3 ≫= returned = Some SUCCESS ∧
    lb_items ∘ buffer <$> chan_of 0 m3 = Some [] ∧
    stores <$> thread_of 2 m3 = Some [(Addr 100, Addr 1)].
Proof.
  eexists _, _, _.
  split; [vm_compute; reflexivity|].
  repeat split; vm_compute; reflexivity.
Qed.

(** C5. The claim fails on this run.  The channel is open and empty, with
    capacity 2.  Threads 0 and 1 call a blocking receive and wait at line 106.
    Threads 2 and 3 send [Addr 1] and [Addr 2]; both calls return [SUCCESS]
    on the open channel, which then buffers the two values in this order, and
    no receive has returned in between.  Thread 4 closes the channel before
    a receiver has the mutex again.  Each receiver then leaves the loop (the
    buffer is not empty), skips the removal at line 108 (the channel is
    closed) and returns [SUCCESS] at line 140: the two receives that succeed
    after the two sends deliver neither [Addr 1] nor [Addr 2], nothing is
    stored through their output pointers, and both values are still in the
    buffer.  No spurious wake-up is involved. *)
Theorem woken_receives_miss_sent_values :
  ∃ m1 m2 m3 m4 : machine,
    run [Run 0; Run 1] closing = Some m1 ∧
    at_pc <$> thread_of 0 m1 = Some (PReceiveWait 0 (Addr 100)) ∧
    at_pc <$> thread_of 1 m1 = Some (PReceiveWait 0 (Addr 101)) ∧
    run [Run 2; Run 3] m1 = Some m2 ∧
    thread_of 2 m2 ≫= returned = Some SUCCESS ∧
    thread_of 3 m2 ≫= returned = Some SUCCESS ∧
    open <$> chan_of 0 m2 = Some true ∧
    lb_items ∘ buffer <$> chan_of 0 m2 = Some [Addr 1; Addr 2] ∧
    at_pc <$> thread_of 0 m2 = Some (PReceiveWait 0 (Addr 100)) ∧
    at_pc <$> thread_of 1 m2 = Some (PReceiveWait 0 (Addr 101)) ∧
    run [Run 4] m2 = Some m3 ∧
    thread_of 4 m3 ≫= returned = Some SUCCESS ∧
    open <$> chan_of 0 m3 = Some false ∧
    run [Run 0; Run 1] m3 = Some m4 ∧
    thread_of 0 m4 ≫= returned = Some SUCCESS ∧
    thread_of 1 m4 ≫= returned = Some SUCCESS ∧
    stores <$> thread_of 0 m4 = Some [] ∧
    stores <$> thread_of 1 m4 = Some [] ∧
    lb_items ∘ buffer <$> chan_of 0 m4 = Some [Addr 1; Addr 2].
Proof.
  eexists _, _, _, _.
  split; [vm_compute; reflexivity|].
  do 2 (split; [vm_compute; reflexivity|]).
  split; [vm_compute; reflexivity|].
  do 6 (split; [vm_compute; reflexivity|]).
  split; [vm_compute; reflexivity|].
  do 2 (split; [vm_compute; reflexivity|]).
  split; [vm_compute; reflexivity|].
  repeat split; vm_compute; reflexivity.
Qed.

(** C2. The claim fails on this call.  A select over the one send descriptor
    with payload [v] on the empty channel of [heap1] commits to index 0 and
    returns [SUCCESS]; what it inserted into the buffer is the address of the
    descriptor's [data] field, not [v]. *)
Theorem select_inserts_field_address (lst : N) (v : ptr) :
  ∃ σ t ch,
    call 4 heap1 (spawn (PSelect 1 lst [Select 0 true v])) = Returned σ t ∧
    returned t = Some SUCCESS ∧
    selected_index t = Some 0 ∧
    chans σ !! 0 = Some ch ∧
    lb_items (buffer ch) = [DataField lst 0] ∧
    (v ≠ DataField lst 0 → lb_items (buffer ch) ≠ [v]).
Proof.
  eexists _, _, _. split; [vm_compute; reflexivity|].
  repeat split; try (vm_compute; reflexivity).
  intros Hv. vm_compute. congruence.
Qed.

(** C8. The claim fails on this call.  In [heap1] the channel is empty with
    capacity 1, so of the descriptors [recv_then_send] the receive at index 0
    is not ready and the send at index 1 is.  The scan locks the channel for
    index 0, does not unlock it, and locks it again for index 1: the call
    never returns, however many transitions it is given. *)
Theorem select_relocks_channel (lst : N) :
  (∃ ch d0 d1,
     chans heap1 !! 0 = Some ch ∧ mutex ch = false ∧
     recv_then_send !! 0 = Some d0 ∧ ready d0 ch = false ∧
     recv_then_send !! 1 = Some d1 ∧ ready d1 ch = true) ∧
  (∀ fuel, call (5 + fuel) heap1 (spawn (PSelect 2 lst recv_then_send)) = Deadlock) ∧
  (∀ fuel σ t, call fuel heap1 (spawn (PSelect 2 lst recv_then_send)) ≠ Returned σ t).
Proof.
  assert (∀ fuel, call (5 + fuel) heap1 (spawn (PSelect 2 lst recv_then_send)) = Deadlock)
    as Hdead by (intros fuel; vm_compute; reflexivity).
  split; [|split; [done|]].
  - eexists _, _, _. repeat split; vm_compute; reflexivity.
  - intros fuel σ t.
    do 5 (destruct fuel as [|fuel]; [vm_compute; discriminate|]).
    change (S (S (S (S (S fuel))))) with (5 + fuel). by rewrite Hdead.
Qed.

(** Two descriptors that are both ready, in either order: index 0 is
    selected and its operation performed. *)
Lemma tie_break_either_order (lst : N) :
  (∃ σ t ch,
     call 5 heap_two (spawn (PSelect 2 lst [recv_first; send_second])) = Returned σ t ∧
     returned t = Some SUCCESS ∧ selected_index t = Some 0 ∧
     stores t = [(DataField lst 0, Addr 1)] ∧
     chans σ !! 0 = Some ch ∧ lb_items (buffer ch) = []) ∧
  (∃ σ t ch,
     call 5 heap_two (spawn (PSelect 2 lst [send_second; recv_first])) = Returned σ t ∧
     returned t = Some SUCCESS ∧ selected_index t = Some 0 ∧
     chans σ !! 1 = Some ch ∧ lb_items (buffer ch) = [DataField lst 0]).
Proof.
  split; eexists _, _, _; (split; [vm_compute; reflexivity|]);
    repeat split; vm_compute; reflexivity.
Qed.

(** *** The theorems at concrete inputs *)

Lemma send_nonblocking_full_witness :
  let ch := chan_with 1 [Addr 1] None true in
  chans heap_full !! 0 = Some ch ∧
  channel_send 0 (Addr 2) false heap_full (spawn (PSend 0 (Addr 2) false)) =
    Next heap_full (set_pc (PReturn WOULDBLOCK) (spawn (PSend 0 (Addr 2) false))).
Proof.
  split; [reflexivity|].
  apply (send_nonblocking_full 0 (Addr 2) heap_full _
           (chan_with 1 [Addr 1] None true));
    reflexivity.
Defined.

Lemma receive_closed_witness :
  let ch := chan_with 2 [Addr 2; Addr 3] None false in
  let t := spawn (PReceive 0 (Addr 100) true) in
  chans heap_closed !! 0 = Some ch ∧
  channel_receive 0 (Addr 100) true heap_closed t =
    Next heap_closed (set_pc (PReturn CLOSED_ERROR) t) ∧
  stores (set_pc (PReturn CLOSED_ERROR) t) = stores t.
Proof.
  split; [reflexivity|].
  apply (receive_closed 0 (Addr 100) true heap_closed _
           (chan_with 2 [Addr 2; Addr 3] None false));
    reflexivity.
Defined.

Lemma close_spec_witness :
  let ch := chan_with 1 [] (Some 0) true in
  let t := spawn (PClose 0) in
  chans heap_selecting !! 0 = Some ch ∧
  ∃ σ' ch',
    channel_close 0 heap_selecting t = Next σ' (set_pc (PReturn SUCCESS) t) ∧
    chans σ' !! 0 = Some ch' ∧ open ch' = false ∧ sems σ' = [1].
Proof.
  split; [reflexivity|].
  destruct (close_spec 0 heap_selecting (spawn (PClose 0))
              (chan_with 1 [] (Some 0) true)
              eq_refl eq_refl) as [Hopen _].
  destruct (Hopen eq_refl) as (σ' & ch' & Hclose & Hc & Ho & _ & _ & Hsems).
  exists σ', ch'. repeat split; assumption.
Defined.

Lemma receive_never_other_error_witness :
  let t := spawn (PReceive 0 (Addr 100) true) in
  ∃ σ' t', step_thread false heap_full t = Next σ' t' ∧
           returned t' = Some SUCCESS ∧ returned t' ≠ Some OTHER_ERROR.
Proof.
  eexists _, _.
  assert (step_thread false heap_full (spawn (PReceive 0 (Addr 100) true)) = Next _ _) as Hstep
    by (vm_compute; reflexivity).
  split; [exact Hstep|]. split; [reflexivity|].
  refine (receive_never_other_error false 0 (Addr 100) true heap_full _ _ _ _ _ Hstep);
    [discriminate | left; reflexivity].
Defined.

Lemma open_never_set_again_witness :
  let t := spawn (PSend 0 (Addr 1) true) in
  let ch := chan_with 2 [Addr 2; Addr 3] None false in
  step_thread false heap_closed t = Next heap_closed (set_pc (PReturn CLOSED_ERROR) t) ∧
  chans heap_closed !! 0 = Some ch ∧
  open ch = false.
Proof.
  assert (step_thread false heap_closed (spawn (PSend 0 (Addr 1) true)) =
          Next heap_closed (set_pc (PReturn CLOSED_ERROR) (spawn (PSend 0 (Addr 1) true)))) as Hstep
    by (vm_compute; reflexivity).
  split; [exact Hstep|]. split; [reflexivity|].
  exact (open_never_set_again false heap_closed _ heap_closed _ 0 _ _ Hstep eq_refl eq_refl eq_refl).
Defined.

Lemma literal_scenario_witness :
  ∃ ch : chan_t,
    scenario heap0 =
      Some ([Some SUCCESS; Some SUCCESS; Some WOULDBLOCK; Some SUCCESS;
             Some SUCCESS; Some SUCCESS; Some CLOSED_ERROR],
            Some (Addr 1), None, Some ch) ∧
    lb_items (buffer ch) = [Addr 2; Addr 3] ∧
    open ch = false.
Proof. exact (literal_scenario lb_items (F := list_Buffer_fifo) heap0). Defined.

Lemma fifo_delivery_witness :
  let ss := [(Addr 1, true); (Addr 2, false)] in
  let rs := [(Addr 100, false); (Addr 101, true)] in
  let outs := [Some (Addr 1); Some (Addr 2)] in
  chan_state lb_items (heap_with 2 [] None true []) 0 2 true [] ∧
  sends 0 ss (heap_with 2 [] None true []) = Some (heap_with 2 [Addr 1; Addr 2] None true []) ∧
  receives 0 rs (heap_with 2 [Addr 1; Addr 2] None true []) =
    Some (outs, heap_with 2 [] None true []) ∧
  outs = Some <$> ss.*1.
Proof.
  intros ss rs outs.
  assert (chan_state lb_items (heap_with 2 [] None true []) 0 2 true []) as Hst
    by (eexists; repeat split; reflexivity).
  assert (sends 0 ss (heap_with 2 [] None true []) =
          Some (heap_with 2 [Addr 1; Addr 2] None true [])) as Hs
    by (vm_compute; reflexivity).
  assert (receives 0 rs (heap_with 2 [Addr 1; Addr 2] None true []) =
          Some (outs, heap_with 2 [] None true [])) as Hr
    by (vm_compute; reflexivity).
  split; [exact Hst|]. split; [exact Hs|]. split; [exact Hr|].
  exact (fifo_delivery lb_items (F := list_Buffer_fifo) 0 2 _ ss _ rs _ _ Hst Hs Hr eq_refl).
Defined.

End Runs.

(** * Further properties of the code *)

(** ** Creation, destruction and the life of a channel *)
Section Lifecycle.
Context {B : Buffer}.

Lemma fresh_unallocated (σ : state) : chans σ !! fresh (dom (chans σ)) = None.
Proof. apply not_elem_of_dom, is_fresh. Qed.

Lemma channel_create_positive size σ t :
  size ≠ 0%N →
  ∃ c ch,
    channel_create size σ t =
      Next (State (<[c := ch]> (chans σ)) (sems σ)) (set_pc (PReturnChan (Some c)) t) ∧
    chans σ !! c = None ∧
    ch = Chan (buffer_create size) None true pthread_cond_init pthread_cond_init false.
Proof.
  intros Hsize. apply N.eqb_neq in Hsize. unfold channel_create. rewrite Hsize.
  eexists _, _. split; [done|]. split; [apply fresh_unallocated | done].
Qed.

(** X1. [channel_create(0)] returns [NULL] and leaves the heap as it is.  For
    a positive size it returns a channel at an address that was not allocated
    before: the channel is open, its buffer is [buffer_create(size)], no
    semaphore is registered and its mutex is free; every other channel and
    every semaphore is as it was. *)
Theorem create_allocates size σ t :
  channel_create 0 σ t = Next σ (set_pc (PReturnChan None) t) ∧
  (size ≠ 0%N →
   ∃ c σ' ch,
     channel_create size σ t = Next σ' (set_pc (PReturnChan (Some c)) t) ∧
     chans σ !! c = None ∧
     chans σ' !! c = Some ch ∧
     buffer ch = buffer_create size ∧ semaphore ch = None ∧
     open ch = true ∧ mutex ch = false ∧
     (∀ c', c' ≠ c → chans σ' !! c' = chans σ !! c') ∧
     sems σ' = sems σ).
Proof.
  split; [done|]. intros Hsize.
  destruct (channel_create_positive size σ t Hsize) as (c & ch & Hcreate & Hfresh & ->).
  eexists c, _, _. split; [exact Hcreate|]. simpl. rewrite lookup_insert_eq.
  repeat split; try done. intros c' Hne. by rewrite lookup_insert_ne.
Qed.

Lemma channel_destroy_open c σ t ch :
  chans σ !! c = Some ch → open ch = true →
  channel_destroy c σ t = Next σ (set_pc (PReturn DESTROY_ERROR) t).
Proof. intros Hc Ho. unfold channel_destroy. by rewrite Hc, Ho. Qed.

Lemma channel_destroy_closed c σ t ch :
  chans σ !! c = Some ch → open ch = false →
  channel_destroy c σ t =
    Next (State (delete c (chans σ)) (sems σ)) (set_pc (PReturn SUCCESS) t).
Proof. intros Hc Ho. unfold channel_destroy. by rewrite Hc, Ho. Qed.

(** X2. [channel_destroy] on an open channel returns [DESTROY_ERROR] and
    leaves the heap as it is; on a closed channel it returns [SUCCESS] and
    frees that channel and no other.  It does not take the mutex: both hold
    whether or not the mutex is locked. *)
Theorem destroy_needs_closed c σ t ch :
  chans σ !! c = Some ch →
  (open ch = true →
   channel_destroy c σ t = Next σ (set_pc (PReturn DESTROY_ERROR) t)) ∧
  (open ch = false →
   ∃ σ', channel_destroy c σ t = Next σ' (set_pc (PReturn SUCCESS) t) ∧
         chans σ' !! c = None ∧
         (∀ c', c' ≠ c → chans σ' !! c' = chans σ !! c') ∧
         sems σ' = sems σ).
Proof.
  intros Hc. split; intros Ho.
  - by eapply channel_destroy_open.
  - eexists. split; [by eapply channel_destroy_closed|]. simpl.
    rewrite lookup_delete_eq. repeat split; try done.
    intros c' Hne. by rewrite lookup_delete_ne.
Qed.

(** X3. The life of a channel: [channel_create] with a positive size, then
    [channel_destroy] (refused with [DESTROY_ERROR], nothing changes), then
    [channel_close] ([SUCCESS]), then [channel_destroy] ([SUCCESS]) gives back
    exactly the heap before the creation. *)
Theorem create_close_destroy size σ :
  size ≠ 0%N →
  ∃ c t1 σ1 t2 t3 σ2 t4,
    invoke 1 (PCreate size) σ = Some (t1, σ1) ∧ at_pc t1 = PReturnChan (Some c) ∧
    invoke 1 (PDestroy c) σ1 = Some (t2, σ1) ∧ returned t2 = Some DESTROY_ERROR ∧
    invoke 1 (PClose c) σ1 = Some (t3, σ2) ∧ returned t3 = Some SUCCESS ∧
    invoke 1 (PDestroy c) σ2 = Some (t4, σ) ∧ returned t4 = Some SUCCESS.
Proof.
  intros Hsize.
  destruct (channel_create_positive size σ (spawn (PCreate size)) Hsize)
    as (c & ch & Hcreate & Hfresh & Hch).
  set (σ1 := State (<[c := ch]> (chans σ)) (sems σ)).
  assert (chans σ1 !! c = Some ch) as Hc1 by (simpl; apply lookup_insert_eq).
  assert (open ch = true ∧ mutex ch = false ∧ semaphore ch = None) as (Ho & Hm & Hs)
    by (by subst ch).
  destruct (channel_close_open c σ1 (spawn (PClose c)) ch Hc1 Hm Ho)
    as (σ2 & ch2 & Hclose & Hc2 & Ho2 & _ & _ & _ & Hsems).
  exists c, (set_pc (PReturnChan (Some c)) (spawn (PCreate size))), σ1,
    (set_pc (PReturn DESTROY_ERROR) (spawn (PDestroy c))),
    (set_pc (PReturn SUCCESS) (spawn (PClose c))), σ2,
    (set_pc (PReturn SUCCESS) (spawn (PDestroy c))).
  split; [by eapply invoke_create|]. split; [done|].
  split; [eapply invoke_1_intro; [done | by eapply channel_destroy_open | done]|].
  split; [done|].
  split; [by eapply invoke_1_intro|]. split; [done|].
  split; [|done]. eapply invoke_1_intro; [done| |done].
  change (channel_destroy c σ2 (spawn (PDestroy c)) =
          Next σ (set_pc (PReturn SUCCESS) (spawn (PDestroy c)))).
  rewrite (channel_destroy_closed c σ2 _ ch2 Hc2 Ho2). do 2 f_equal.
  unfold channel_close in Hclose.
  rewrite (lock_free _ _ _ _ Hc1 Hm) in Hclose. simpl in Hclose.
  rewrite Ho in Hclose. unfold ret, post_semaphore in Hclose. simpl in Hclose.
  rewrite Hs in Hclose. simplify_eq. simpl.
  rewrite insert_insert_eq, delete_insert_id by done. apply state_eta.
Qed.

(** X4. Close is final: once [channel_close] has returned [SUCCESS], every
    new [channel_send], [channel_receive] (blocking or not) and
    [channel_close] on the channel returns [CLOSED_ERROR] and changes
    nothing. *)
Theorem close_is_final c σ t ch :
  chans σ !! c = Some ch →
  mutex ch = false →
  open ch = true →
  ∃ σ',
    channel_close c σ t = Next σ' (set_pc (PReturn SUCCESS) t) ∧
    (∀ data blocking t',
       channel_send c data blocking σ' t' = Next σ' (set_pc (PReturn CLOSED_ERROR) t')) ∧
    (∀ data blocking t',
       channel_receive c data blocking σ' t' = Next σ' (set_pc (PReturn CLOSED_ERROR) t')) ∧
    (∀ t', channel_close c σ' t' = Next σ' (set_pc (PReturn CLOSED_ERROR) t')).
Proof.
  intros Hc Hm Ho.
  destruct (channel_close_open c σ t ch Hc Hm Ho)
    as (σ' & ch' & Hclose & Hc' & Ho' & Hm' & _).
  exists σ'. split; [done|]. split; [|split]; intros.
  - by eapply send_closed.
  - by eapply channel_receive_closed.
  - by eapply channel_close_closed.
Qed.

End Lifecycle.

(** ** What one send or receive does *)
Section Calls.
Context {B : Buffer}.

Lemma put_same_but_waiters c σ ch ch' :
  chans σ !! c = Some ch →
  buffer ch' = buffer ch → open ch' = open ch → semaphore ch' = semaphore ch →
  mutex ch' = false →
  same_but_waiters σ (State (<[c := ch']> (chans σ)) (sems σ)) c.
Proof.
  intros Hc Hb Ho Hs Hm. exists ch, ch'. simpl. rewrite lookup_insert_eq.
  repeat split; try done. intros c' Hne. by rewrite lookup_insert_ne.
Qed.

(** X5. A non-blocking [channel_receive] on an open channel whose buffer is
    empty returns [WOULDBLOCK], stores nothing and leaves the whole heap as
    it was. *)
Theorem receive_nonblocking_empty c data σ t ch :
  chans σ !! c = Some ch →
  mutex ch = false →
  open ch = true →
  buffer_current_size (buffer ch) = 0%N →
  channel_receive c data false σ t = Next σ (set_pc (PReturn WOULDBLOCK) t) ∧
  stores (set_pc (PReturn WOULDBLOCK) t) = stores t.
Proof.
  intros Hc Hm Ho Hempty. split; [|done]. unfold channel_receive.
  rewrite (lock_free _ _ _ _ Hc Hm). simpl. rewrite Ho. simpl.
  rewrite Hempty. simpl. unfold ret.
  by rewrite (unlock_unchanged _ _ _ Hc Hm).
Qed.

Lemma send_wait_full c data ch σ t :
  chans σ !! c = Some ch → mutex ch = false → open ch = true →
  buffer_capacity (buffer ch) = buffer_current_size (buffer ch) →
  ∀ cv, ∃ σ',
    send_wait c data (set_send cv (set_mutex true ch)) σ t =
      Next σ' (set_pc (PSendWait c data) t) ∧
    same_but_waiters σ σ' c.
Proof.
  intros Hc Hm Ho Hfull cv. unfold send_wait. simpl.
  rewrite Hfull, N.eqb_refl, Ho. simpl. eexists. split; [done|].
  by eapply put_same_but_waiters.
Qed.

(** X6. A blocking [channel_send] on an open channel whose buffer is full
    waits, and a waiter that wakes up, signalled or spuriously, while the
    buffer is still full and the channel open waits again: in both cases the
    thread stands in [pthread_cond_wait] with the mutex released, and the
    buffer, the open flag, the semaphores and all other channels are as they
    were. *)
Theorem send_waits_while_full c data σ t ch :
  chans σ !! c = Some ch →
  mutex ch = false →
  open ch = true →
  buffer_capacity (buffer ch) = buffer_current_size (buffer ch) →
  (∃ σ', channel_send c data true σ t = Next σ' (set_pc (PSendWait c data) t) ∧
         same_but_waiters σ σ' c) ∧
  (∀ spurious cv,
     cond_wake spurious (send ch) = Some cv →
     ∃ σ', channel_send_wake spurious c data σ t = Next σ' (set_pc (PSendWait c data) t) ∧
           same_but_waiters σ σ' c).
Proof.
  intros Hc Hm Ho Hfull. split.
  - unfold channel_send. rewrite (lock_free _ _ _ _ Hc Hm). simpl. rewrite Ho. simpl.
    destruct (send_wait_full c data ch σ t Hc Hm Ho Hfull (send ch)) as (σ' & Hw & Hsame).
    exists σ'. split; [exact Hw | done].
  - intros spurious cv Hcv. unfold channel_send_wake. rewrite Hc, Hcv.
    rewrite (lock_free _ _ _ _ Hc Hm).
    destruct (send_wait_full c data ch σ t Hc Hm Ho Hfull cv) as (σ' & Hw & Hsame).
    exists σ'. split; [exact Hw | done].
Qed.

Lemma receive_wait_empty c data ch σ t :
  chans σ !! c = Some ch → mutex ch = false → open ch = true →
  buffer_current_size (buffer ch) = 0%N →
  ∀ cv, ∃ σ',
    receive_wait c data (set_recv cv (set_mutex true ch)) σ t =
      Next σ' (set_pc (PReceiveWait c data) t) ∧
    same_but_waiters σ σ' c.
Proof.
  intros Hc Hm Ho Hempty cv. unfold receive_wait. simpl.
  rewrite Hempty, Ho. simpl. eexists. split; [done|].
  by eapply put_same_but_waiters.
Qed.

(** X7. A blocking [channel_receive] on an open channel whose buffer is empty
    waits, and a waiter that wakes up, signalled or spuriously, while the
    buffer is still empty and the channel open waits again: nothing is
    stored, and the buffer, the open flag, the semaphores and all other
    channels are as they were. *)
Theorem receive_waits_while_empty c data σ t ch :
  chans σ !! c = Some ch →
  mutex ch = false →
  open ch = true →
  buffer_current_size (buffer ch) = 0%N →
  (∃ σ', channel_receive c data true σ t = Next σ' (set_pc (PReceiveWait c data) t) ∧
         same_but_waiters σ σ' c) ∧
  (∀ spurious cv,
     cond_wake spurious (recv ch) = Some cv →
     ∃ σ', channel_receive_wake spurious c data σ t =
             Next σ' (set_pc (PReceiveWait c data) t) ∧
           same_but_waiters σ σ' c).
Proof.
  intros Hc Hm Ho Hempty. split.
  - unfold channel_receive. rewrite (lock_free _ _ _ _ Hc Hm). simpl. rewrite Ho. simpl.
    destruct (receive_wait_empty c data ch σ t Hc Hm Ho Hempty (recv ch)) as (σ' & Hw & Hsame).
    exists σ'. split; [exact Hw | done].
  - intros spurious cv Hcv. unfold channel_receive_wake. rewrite Hc, Hcv.
    rewrite (lock_free _ _ _ _ Hc Hm).
    destruct (receive_wait_empty c data ch σ t Hc Hm Ho Hempty cv) as (σ' & Hw & Hsame).
    exists σ'. split; [exact Hw | done].
Qed.

(** The insertion and what follows it, with the mutex held. *)
Lemma send_add_outcome c data ch σ t :
  chans σ !! c = Some ch → open ch = true →
  ∀ cv, ∃ σ' ch',
    send_add c data (set_send cv (set_mutex true ch)) σ t =
      Next σ' (set_pc (PReturn (if (buffer_add data (buffer ch)).1
                                then SUCCESS else OTHER_ERROR)) t) ∧
    chans σ' !! c = Some ch' ∧
    buffer ch' = (buffer_add data (buffer ch)).2 ∧
    open ch' = true ∧ semaphore ch' = semaphore ch ∧ mutex ch' = false ∧
    send ch' = cv ∧
    recv ch' = (if (buffer_add data (buffer ch)).1
                then pthread_cond_signal (recv ch) else recv ch) ∧
    sems σ' = (if (buffer_add data (buffer ch)).1
               then posted (semaphore ch) (sems σ) else sems σ) ∧
    (∀ c', c' ≠ c → chans σ' !! c' = chans σ !! c').
Proof.
  intros Hc Ho cv. unfold send_add, send_done, ret. simpl. rewrite Ho.
  destruct (buffer_add data (buffer ch)).1; simpl;
    (eexists _, _; split; [done|]; simpl; rewrite lookup_insert_eq;
     split; [done|]; simpl; repeat split; try done;
     try (by unfold post_semaphore, posted; simpl; destruct (semaphore ch));
     unfold post_semaphore; simpl; destruct (semaphore ch); simpl;
     intros c' Hne; by rewrite lookup_insert_ne).
Qed.

Lemma channel_send_outcome c data blocking σ t ch :
  chans σ !! c = Some ch → mutex ch = false → open ch = true →
  buffer_capacity (buffer ch) ≠ buffer_current_size (buffer ch) →
  ∃ σ' ch',
    channel_send c data blocking σ t =
      Next σ' (set_pc (PReturn (if (buffer_add data (buffer ch)).1
                                then SUCCESS else OTHER_ERROR)) t) ∧
    chans σ' !! c = Some ch' ∧
    buffer ch' = (buffer_add data (buffer ch)).2 ∧
    open ch' = true ∧ semaphore ch' = semaphore ch ∧ mutex ch' = false ∧
    send ch' = send ch ∧
    recv ch' = (if (buffer_add data (buffer ch)).1
                then pthread_cond_signal (recv ch) else recv ch) ∧
    sems σ' = (if (buffer_add data (buffer ch)).1
               then posted (semaphore ch) (sems σ) else sems σ) ∧
    (∀ c', c' ≠ c → chans σ' !! c' = chans σ !! c').
Proof.
  intros Hc Hm Ho Hroom. apply N.eqb_neq in Hroom.
  destruct (send_add_outcome c data ch σ t Hc Ho (send ch)) as (σ' & ch' & Hadd & Hrest).
  exists σ', ch'. split; [|done].
  unfold channel_send, send_wait. rewrite (lock_free _ _ _ _ Hc Hm). simpl.
  rewrite Ho, Hroom. simpl. destruct blocking; exact Hadd.
Qed.

(** X8. A [channel_send], blocking or not, on an open channel whose buffer is
    not full calls [buffer_add] once and returns [SUCCESS] if it answers
    true, [OTHER_ERROR] if not.  Either way the buffer is what [buffer_add]
    left and the mutex is released; on [SUCCESS] the registered semaphore is
    posted once and one waiting receiver is signalled, on [OTHER_ERROR]
    neither happens; no other channel changes. *)
Theorem send_with_room c data blocking σ t ch :
  chans σ !! c = Some ch →
  mutex ch = false →
  open ch = true →
  buffer_capacity (buffer ch) ≠ buffer_current_size (buffer ch) →
  ∃ σ' ch',
    channel_send c data blocking σ t =
      Next σ' (set_pc (PReturn (if (buffer_add data (buffer ch)).1
                                then SUCCESS else OTHER_ERROR)) t) ∧
    chans σ' !! c = Some ch' ∧
    buffer ch' = (buffer_add data (buffer ch)).2 ∧
    open ch' = true ∧ semaphore ch' = semaphore ch ∧ mutex ch' = false ∧
    send ch' = send ch ∧
    recv ch' = (if (buffer_add data (buffer ch)).1
                then pthread_cond_signal (recv ch) else recv ch) ∧
    sems σ' = (if (buffer_add data (buffer ch)).1
               then posted (semaphore ch) (sems σ) else sems σ) ∧
    (∀ c', c' ≠ c → chans σ' !! c' = chans σ !! c').
Proof.
  intros Hc Hm Ho Hroom. apply N.eqb_neq in Hroom.
  destruct (send_add_outcome c data ch σ t Hc Ho (send ch)) as (σ' & ch' & Hadd & Hrest).
  exists σ', ch'. split; [|exact Hrest].
  unfold channel_send. rewrite (lock_free _ _ _ _ Hc Hm). simpl. rewrite Ho. simpl.
  destruct blocking.
  - unfold send_wait. simpl. rewrite Hroom. exact Hadd.
  - rewrite Hroom. exact Hadd.
Qed.

(** The removal and what follows it, with the mutex held. *)
Lemma receive_remove_outcome c data ch σ t :
  chans σ !! c = Some ch → open ch = true → data ≠ NULL →
  ∀ cv, ∃ σ' ch',
    receive_remove c data (set_recv cv (set_mutex true ch)) σ t =
      Next σ' (Thread (PReturn SUCCESS) (selected_index t)
                      ((data, (buffer_remove (buffer ch)).1) :: stores t)) ∧
    chans σ' !! c = Some ch' ∧
    buffer ch' = (buffer_remove (buffer ch)).2 ∧
    open ch' = true ∧ semaphore ch' = semaphore ch ∧ mutex ch' = false ∧
    recv ch' = cv ∧
    send ch' = pthread_cond_signal (send ch) ∧
    sems σ' = posted (semaphore ch) (sems σ) ∧
    (∀ c', c' ≠ c → chans σ' !! c' = chans σ !! c').
Proof.
  intros Hc Ho Hdata cv. unfold receive_remove, receive_done, ret, store. simpl.
  rewrite Ho. destruct data; [done| |]; simpl;
    (eexists _, _; split; [done|]; simpl; rewrite lookup_insert_eq;
     split; [done|]; simpl; repeat split; try done;
     try (by unfold post_semaphore, posted; simpl; destruct (semaphore ch));
     unfold post_semaphore; simpl; destruct (semaphore ch); simpl;
     intros c' Hne; by rewrite lookup_insert_ne).
Qed.

Lemma channel_receive_outcome c data blocking σ t ch :
  chans σ !! c = Some ch → mutex ch = false → open ch = true →
  buffer_current_size (buffer ch) ≠ 0%N → data ≠ NULL →
  ∃ σ' ch',
    channel_receive c data blocking σ t =
      Next σ' (Thread (PReturn SUCCESS) (selected_index t)
                      ((data, (buffer_remove (buffer ch)).1) :: stores t)) ∧
    chans σ' !! c = Some ch' ∧
    buffer ch' = (buffer_remove (buffer ch)).2 ∧
    open ch' = true ∧ semaphore ch' = semaphore ch ∧ mutex ch' = false ∧
    recv ch' = recv ch ∧
    send ch' = pthread_cond_signal (send ch) ∧
    sems σ' = posted (semaphore ch) (sems σ) ∧
    (∀ c', c' ≠ c → chans σ' !! c' = chans σ !! c').
Proof.
  intros Hc Hm Ho Hdata Hnn. apply N.eqb_neq in Hdata.
  destruct (receive_remove_outcome c data ch σ t Hc Ho Hnn (recv ch))
    as (σ' & ch' & Hrem & Hrest).
  exists σ', ch'. split; [|done].
  unfold channel_receive, receive_wait. rewrite (lock_free _ _ _ _ Hc Hm). simpl.
  rewrite Ho, Hdata. simpl. destruct blocking; exact Hrem.
Qed.

(** X9. A [channel_receive], blocking or not, with a non-null output pointer
    on an open channel whose buffer is not empty calls [buffer_remove] once,
    stores what it returned through the pointer and returns [SUCCESS]; the
    buffer is what [buffer_remove] left, the mutex is released, the
    registered semaphore is posted once, one waiting sender is signalled and
    no other channel changes. *)
Theorem receive_with_data c data blocking σ t ch :
  chans σ !! c = Some ch →
  mutex ch = false →
  open ch = true →
  buffer_current_size (buffer ch) ≠ 0%N →
  data ≠ NULL →
  ∃ σ' ch',
    channel_receive c data blocking σ t =
      Next σ' (Thread (PReturn SUCCESS) (selected_index t)
                      ((data, (buffer_remove (buffer ch)).1) :: stores t)) ∧
    chans σ' !! c = Some ch' ∧
    buffer ch' = (buffer_remove (buffer ch)).2 ∧
    open ch' = true ∧ semaphore ch' = semaphore ch ∧ mutex ch' = false ∧
    recv ch' = recv ch ∧
    send ch' = pthread_cond_signal (send ch) ∧
    sems σ' = posted (semaphore ch) (sems σ) ∧
    (∀ c', c' ≠ c → chans σ' !! c' = chans σ !! c').
Proof.
  intros Hc Hm Ho Hdata Hnn. apply N.eqb_neq in Hdata.
  destruct (receive_remove_outcome c data ch σ t Hc Ho Hnn (recv ch))
    as (σ' & ch' & Hrem & Hrest).
  exists σ', ch'. split; [|exact Hrest].
  unfold channel_receive. rewrite (lock_free _ _ _ _ Hc Hm). simpl. rewrite Ho. simpl.
  destruct blocking.
  - unfold receive_wait. simpl. rewrite Hdata. exact Hrem.
  - rewrite Hdata. exact Hrem.
Qed.

End Calls.

(** ** Close and the waiters *)
Section CloseWakes.
Context {B : Buffer}.

Lemma receive_wake_closed_empty spurious c data σ t ch cv :
  chans σ !! c = Some ch → mutex ch = false → open ch = false →
  buffer_current_size (buffer ch) = 0%N →
  cond_wake spurious (recv ch) = Some cv →
  channel_receive_wake spurious c data σ t =
    Next (State (<[c := set_recv cv ch]> (chans σ)) (sems σ))
         (set_pc (PReturn CLOSED_ERROR) t).
Proof.
  intros Hc Hm Ho Hempty Hcv. unfold channel_receive_wake. rewrite Hc, Hcv.
  rewrite (lock_free _ _ _ _ Hc Hm). unfold receive_wait. simpl.
  rewrite Hempty, Ho. simpl. unfold ret, pthread_mutex_unlock.
  do 3 f_equal. destruct ch; simpl in *. by subst.
Qed.

Lemma broadcast_wakes cv :
  0 < waiting cv →
  ∃ cv', cond_wake false (pthread_cond_broadcast cv) = Some cv'.
Proof.
  intros Hw. unfold cond_wake, pthread_cond_broadcast. simpl.
  destruct (waiting cv); [lia | eauto].
Qed.

(** X10. [channel_close] wakes the waiters and they give up: after a close
    that returned [SUCCESS], a sender that was waiting on the full buffer
    and a receiver that was waiting on the empty buffer leave
    [pthread_cond_wait] without a spurious wake-up and return
    [CLOSED_ERROR]; the sender inserts nothing, the receiver stores nothing
    and the buffer is as it was. *)
Theorem close_wakes_waiters c σ t ch :
  chans σ !! c = Some ch →
  mutex ch = false →
  open ch = true →
  ∃ σ',
    channel_close c σ t = Next σ' (set_pc (PReturn SUCCESS) t) ∧
    (buffer_capacity (buffer ch) = buffer_current_size (buffer ch) →
     0 < waiting (send ch) →
     ∀ data ts, ∃ σ'' ch'',
       channel_send_wake false c data σ' ts = Next σ'' (set_pc (PReturn CLOSED_ERROR) ts) ∧
       chans σ'' !! c = Some ch'' ∧ buffer ch'' = buffer ch) ∧
    (buffer_current_size (buffer ch) = 0%N →
     0 < waiting (recv ch) →
     ∀ data tr, ∃ σ'' ch'',
       channel_receive_wake false c data σ' tr = Next σ'' (set_pc (PReturn CLOSED_ERROR) tr) ∧
       chans σ'' !! c = Some ch'' ∧ buffer ch'' = buffer ch).
Proof.
  intros Hc Hm Ho.
  set (ch' := set_mutex false
                (set_recv (pthread_cond_broadcast (recv ch))
                   (set_send (pthread_cond_broadcast (send ch))
                      (set_open false (set_mutex true ch))))).
  set (σ' := State (<[c := ch']> (chans σ)) (sems (post_semaphore ch σ))).
  assert (channel_close c σ t = Next σ' (set_pc (PReturn SUCCESS) t)) as Hclose.
  { unfold channel_close. rewrite (lock_free _ _ _ _ Hc Hm). simpl. rewrite Ho. simpl.
    unfold ret, pthread_mutex_unlock, post_semaphore, sem_post. simpl.
    unfold σ', post_semaphore, sem_post. by destruct (semaphore ch). }
  assert (chans σ' !! c = Some ch') as Hc' by (simpl; apply lookup_insert_eq).
  exists σ'. split; [done|]. split.
  - intros Hfull Hw data ts.
    destruct (broadcast_wakes (send ch) Hw) as [cv Hcv].
    eexists _, _. split.
    + eapply (send_wake_closed_full false c data σ' ts ch'); done.
    + simpl. rewrite lookup_insert_eq. done.
  - intros Hempty Hw data tr.
    destruct (broadcast_wakes (recv ch) Hw) as [cv Hcv].
    eexists _, _. split.
    + eapply (receive_wake_closed_empty false c data σ' tr ch'); done.
    + simpl. rewrite lookup_insert_eq. done.
Qed.

End CloseWakes.

(** ** Invariants and hand-over with a FIFO buffer *)
Section FifoMore.
Context {B : Buffer} (contents : buffer_t → list ptr) {F : BufferFifo B contents}.

Lemma add_fits v b :
  fits contents b → buffer_capacity b ≠ buffer_current_size b →
  (buffer_add v b).1 = true ∧
  fits contents (buffer_add v b).2 ∧
  buffer_capacity (buffer_add v b).2 = buffer_capacity b.
Proof.
  unfold fits. intros Hfit Hroom. rewrite buffer_size_contents in Hroom.
  assert ((buffer_add v b).1 = true) as Hok.
  { apply buffer_add_room. rewrite buffer_size_contents. lia. }
  destruct (buffer_add_true v b Hok) as [Hcont Hcap].
  split; [done|]. split; [|done]. rewrite Hcont, Hcap, length_app. simpl. lia.
Qed.

Lemma remove_fits b :
  fits contents b → buffer_current_size b ≠ 0%N →
  fits contents (buffer_remove b).2 ∧
  buffer_capacity (buffer_remove b).2 = buffer_capacity b.
Proof.
  unfold fits. intros Hfit Hdata. rewrite buffer_size_contents in Hdata.
  destruct (contents b) as [|x xs] eqn:Hxs; [done|].
  destruct (buffer_remove_cons b x xs Hxs) as (_ & Hcont & Hcap).
  split; [|done]. rewrite Hcont, Hcap. simpl in Hfit. lia.
Qed.

Lemma put_fits σ c0 ch0 ch' :
  within_capacity contents σ →
  chans σ !! c0 = Some ch0 →
  (fits contents (buffer ch0) →
   fits contents (buffer ch') ∧
   buffer_capacity (buffer ch') = buffer_capacity (buffer ch0)) →
  ∀ c ch1, <[c0 := ch']> (chans σ) !! c = Some ch1 →
    fits contents (buffer ch1) ∧
    ∀ ch, chans σ !! c = Some ch →
      buffer_capacity (buffer ch1) = buffer_capacity (buffer ch).
Proof.
  intros Hin Hc0 Hkeep c ch1. destruct (decide (c0 = c)) as [-> | Hne].
  - rewrite lookup_insert_eq. intros [= <-].
    destruct (Hkeep (Hin _ _ Hc0)) as [Hfit Hcap]. split; [done|].
    intros ch Hc. by simplify_eq.
  - rewrite lookup_insert_ne by done. intros Hc. split; [by eapply Hin|].
    intros ch Hc'. by simplify_eq.
Qed.

(** One transition keeps every buffer within its capacity and changes the
    capacity of no channel. *)
Lemma step_fits spurious σ t σ' t' :
  within_capacity contents σ →
  step_thread spurious σ t = Next σ' t' →
  ∀ c ch', chans σ' !! c = Some ch' →
    fits contents (buffer ch') ∧
    ∀ ch, chans σ !! c = Some ch →
      buffer_capacity (buffer ch') = buffer_capacity (buffer ch).
Proof.
  intros Hin Hstep. unfold_step Hstep.
  repeat case_match; simplify_eq; simpl in *;
    try (intros c1 ch1 Hl; split; [by eapply Hin | intros; by simplify_eq]);
    try (eapply put_fits; [done | done | simpl; intros Hfit];
         first [ done
               | match goal with
                 | H : (_ =? _)%N = false |- context [buffer_add ?v ?b] =>
                     apply N.eqb_neq in H;
                     by destruct (add_fits v b Hfit H) as (_ & ? & ?)
                 | H : (_ =? _)%N = false |- context [buffer_remove ?b] =>
                     apply N.eqb_neq in H;
                     by destruct (remove_fits b Hfit H)
                 end ]).
  - (* channel_create: a new, empty buffer at a fresh address *)
    intros c ch'. destruct (decide (fresh (dom (chans σ)) = c)) as [<- | Hne].
    + rewrite lookup_insert_eq. intros [= <-]. simpl. split.
      * unfold fits. rewrite buffer_create_contents. simpl. lia.
      * intros ch Hc. by rewrite fresh_unallocated in Hc.
    + rewrite lookup_insert_ne by done. intros Hc. split; [by eapply Hin|].
      intros; by simplify_eq.
  - (* channel_destroy *)
    intros c1 ch' Hd. apply lookup_delete_Some in Hd as [_ Hd].
    split; [by eapply Hin | intros; by simplify_eq].
Qed.

(** X11. The capacity bound is an invariant: from a heap in which every
    buffer holds no more values than its capacity, whatever the threads do
    and however they are scheduled, every buffer of the heap reached holds
    no more values than its capacity. *)
Theorem capacity_invariant sched (m m' : machine) :
  within_capacity contents (shared m) →
  run sched m = Some m' →
  within_capacity contents (shared m').
Proof.
  revert m. induction sched as [|l sched IH]; intros m Hin Hrun; simpl in Hrun.
  - by simplify_eq.
  - destruct (step l m) as [m1|] eqn:Hstep; [|done].
    apply (IH m1); [|done]. unfold step in Hstep.
    destruct (match l with Run tid => (false, tid) | Spurious tid => (true, tid) end)
      as [spurious tid].
    destruct (threads m !! tid) as [t|]; [|done].
    destruct (step_thread spurious (shared m) t) as [σ1 t1| |] eqn:Hst; [|done..].
    simplify_eq. simpl. intros c ch Hc.
    by destruct (step_fits _ _ _ _ _ Hin Hst c ch Hc).
Qed.

(** X12. No transition changes the capacity of a channel: in a heap within
    capacity, a channel that is allocated before and after a transition of
    any operation has the same [buffer_capacity] after it. *)
Theorem capacity_is_fixed spurious σ t σ' t' c ch ch' :
  within_capacity contents σ →
  step_thread spurious σ t = Next σ' t' →
  chans σ !! c = Some ch →
  chans σ' !! c = Some ch' →
  buffer_capacity (buffer ch') = buffer_capacity (buffer ch).
Proof.
  intros Hin Hstep Hc Hc'.
  by destruct (step_fits _ _ _ _ _ Hin Hstep c ch' Hc') as [_ Hcap]; apply Hcap.
Qed.

(** X13. With a FIFO buffer within its capacity [channel_send] never returns
    [OTHER_ERROR], at its entry or after a wake-up: the insertion is only
    tried when the buffer has room, and then [buffer_add] succeeds. *)
Theorem send_never_other_error spurious c data blocking σ t σ' t' :
  within_capacity contents σ →
  at_pc t = PSend c data blocking ∨ at_pc t = PSendWait c data →
  step_thread spurious σ t = Next σ' t' →
  returned t' ≠ Some OTHER_ERROR.
Proof.
  intros Hin Hpc Hstep. unfold step_thread in Hstep.
  assert (∀ ch cv, chans σ !! c = Some ch →
            (buffer_capacity (buffer ch) =? buffer_current_size (buffer ch))%N = false →
            send_add c data (set_send cv (set_mutex true ch)) σ t = Next σ' t' →
            returned t' ≠ Some OTHER_ERROR) as Hadd.
  { intros ch cv Hc Hroom Hsa. apply N.eqb_neq in Hroom.
    destruct (add_fits data (buffer ch) (Hin _ _ Hc) Hroom) as (Hok & _).
    unfold send_add, send_done, ret in Hsa. simpl in Hsa. rewrite Hok in Hsa.
    destruct (open ch); simpl in Hsa; by simplify_eq. }
  destruct Hpc as [Hpc | Hpc]; rewrite Hpc in Hstep.
  - destruct spurious; [done|].
    unfold channel_send, pthread_mutex_lock, send_wait, ret in Hstep.
    destruct (chans σ !! c) as [ch|] eqn:Hc; [|done].
    destruct (mutex ch); [done|]. simpl in Hstep.
    destruct (open ch) eqn:Ho; simpl in Hstep; [|by simplify_eq].
    destruct blocking;
      (destruct (_ =? _)%N eqn:Hroom; [by simplify_eq|]);
      by eapply (Hadd ch (send ch)).
  - unfold channel_send_wake, pthread_mutex_lock, send_wait, ret in Hstep.
    destruct (chans σ !! c) as [ch|] eqn:Hc; [|done].
    destruct (cond_wake spurious (send ch)) as [cv|]; [|done].
    destruct (mutex ch); [done|]. simpl in Hstep.
    destruct (_ =? _)%N eqn:Hroom.
    + destruct (negb (open ch)); by simplify_eq.
    + by eapply (Hadd ch cv).
Qed.

Lemma signal_wakes cv :
  signalled cv < waiting cv →
  cond_wake false (pthread_cond_signal cv) = Some (Cond (pred (waiting cv)) (signalled cv)).
Proof.
  intros Hlt. unfold pthread_cond_signal. apply Nat.ltb_lt in Hlt. by rewrite Hlt.
Qed.

(** X14. Hand-over to a waiting receiver: on an open, empty channel of
    positive capacity on which a receiver waits that has not been signalled
    yet, a [channel_send] of [v] returns [SUCCESS], and that receiver then
    leaves [pthread_cond_wait] without a spurious wake-up, stores [v]
    through its output pointer and returns [SUCCESS], leaving the buffer
    empty. *)
Theorem send_hands_to_receiver c v blocking data σ ts tr ch :
  chans σ !! c = Some ch →
  mutex ch = false →
  open ch = true →
  contents (buffer ch) = [] →
  buffer_capacity (buffer ch) ≠ 0%N →
  signalled (recv ch) < waiting (recv ch) →
  data ≠ NULL →
  ∃ σ1 σ2 ch2,
    channel_send c v blocking σ ts = Next σ1 (set_pc (PReturn SUCCESS) ts) ∧
    channel_receive_wake false c data σ1 tr =
      Next σ2 (Thread (PReturn SUCCESS) (selected_index tr) ((data, v) :: stores tr)) ∧
    chans σ2 !! c = Some ch2 ∧
    contents (buffer ch2) = [] ∧ open ch2 = true ∧ mutex ch2 = false.
Proof.
  intros Hc Hm Ho Hxs Hcap Hwait Hdata.
  assert (fits contents (buffer ch)) as Hfit by (unfold fits; rewrite Hxs; simpl; lia).
  assert (buffer_capacity (buffer ch) ≠ buffer_current_size (buffer ch)) as Hroom.
  { rewrite buffer_size_contents, Hxs. simpl. done. }
  destruct (add_fits v (buffer ch) Hfit Hroom) as (Hok & _ & _).
  destruct (buffer_add_true v (buffer ch) Hok) as [Hcont _]. rewrite Hxs in Hcont.
  destruct (channel_send_outcome c v blocking σ ts ch Hc Hm Ho Hroom)
    as (σ1 & ch1 & Hsend & Hc1 & Hb1 & Ho1 & _ & Hm1 & _ & Hr1 & _).
  rewrite Hok in Hsend, Hr1. rewrite <- Hb1 in Hcont.
  destruct (buffer_remove_cons (buffer ch1) v [] Hcont) as (Hv & Hrest & _).
  destruct (receive_remove_outcome c data ch1 σ1 tr Hc1 Ho1 Hdata
              (Cond (pred (waiting (recv ch))) (signalled (recv ch))))
    as (σ2 & ch2 & Hrem & Hc2 & Hb2 & Ho2 & _ & Hm2 & _).
  exists σ1, σ2, ch2. split; [done|]. split.
  - unfold channel_receive_wake. rewrite Hc1, Hr1, (signal_wakes _ Hwait).
    rewrite (lock_free _ _ _ _ Hc1 Hm1). unfold receive_wait. simpl.
    assert ((buffer_current_size (buffer ch1) =? 0)%N = false) as ->.
    { apply N.eqb_neq. rewrite buffer_size_contents, Hcont. done. }
    rewrite <- Hv. exact Hrem.
  - split; [done|]. by rewrite Hb2, Hrest.
Qed.

(** X15. Hand-over to a waiting sender: on an open channel whose buffer is
    full with [x] the oldest value, and on which a sender of [v] waits that
    has not been signalled yet, a [channel_receive] returns [SUCCESS] with
    [x], and that sender then leaves [pthread_cond_wait] without a spurious
    wake-up, appends [v] behind the values that were left and returns
    [SUCCESS]. *)
Theorem receive_hands_to_sender c v blocking data σ ts tr ch x xs :
  chans σ !! c = Some ch →
  mutex ch = false →
  open ch = true →
  contents (buffer ch) = x :: xs →
  buffer_capacity (buffer ch) = buffer_current_size (buffer ch) →
  signalled (send ch) < waiting (send ch) →
  data ≠ NULL →
  ∃ σ1 σ2 ch2,
    channel_receive c data blocking σ tr =
      Next σ1 (Thread (PReturn SUCCESS) (selected_index tr) ((data, x) :: stores tr)) ∧
    channel_send_wake false c v σ1 ts = Next σ2 (set_pc (PReturn SUCCESS) ts) ∧
    chans σ2 !! c = Some ch2 ∧
    contents (buffer ch2) = xs ++ [v] ∧ open ch2 = true ∧ mutex ch2 = false.
Proof.
  intros Hc Hm Ho Hxs Hfull Hwait Hdata.
  assert (buffer_current_size (buffer ch) ≠ 0%N) as Hne.
  { rewrite buffer_size_contents, Hxs. simpl. lia. }
  destruct (buffer_remove_cons (buffer ch) x xs Hxs) as (Hx & Hrest & Hcap).
  destruct (channel_receive_outcome c data blocking σ tr ch Hc Hm Ho Hne Hdata)
    as (σ1 & ch1 & Hrecv & Hc1 & Hb1 & Ho1 & _ & Hm1 & _ & Hs1 & _).
  rewrite Hx in Hrecv. rewrite <- Hb1 in Hrest, Hcap.
  assert (fits contents (buffer ch1)) as Hfit.
  { unfold fits. rewrite Hrest, Hcap, Hfull, buffer_size_contents, Hxs. simpl. lia. }
  assert (buffer_capacity (buffer ch1) ≠ buffer_current_size (buffer ch1)) as Hroom.
  { rewrite Hcap, Hfull, !buffer_size_contents, Hrest, Hxs. simpl. lia. }
  destruct (add_fits v (buffer ch1) Hfit Hroom) as (Hok & _ & _).
  destruct (buffer_add_true v (buffer ch1) Hok) as [Hcont _]. rewrite Hrest in Hcont.
  destruct (send_add_outcome c v ch1 σ1 ts Hc1 Ho1
              (Cond (pred (waiting (send ch))) (signalled (send ch))))
    as (σ2 & ch2 & Hadd & Hc2 & Hb2 & Ho2 & _ & Hm2 & _).
  rewrite Hok in Hadd.
  exists σ1, σ2, ch2. split; [done|]. split.
  - unfold channel_send_wake. rewrite Hc1, Hs1, (signal_wakes _ Hwait).
    rewrite (lock_free _ _ _ _ Hc1 Hm1). unfold send_wait. simpl.
    apply N.eqb_neq in Hroom. rewrite Hroom. exact Hadd.
  - split; [done|]. by rewrite Hb2, Hcont.
Qed.

End FifoMore.

(** ** channel_select: registration, locks and waiting *)
Section SelectMore.
Context {B : Buffer}.

Lemma altered_nil f (m : gmap nat chan_t) : altered f [] m m.
Proof. intros c. by rewrite bool_decide_eq_false_2 by apply not_elem_of_nil. Qed.

Lemma altered_snoc f cs c (m m' : gmap nat chan_t) ch0 :
  altered f cs m m' → m !! c = Some ch0 →
  altered f (cs ++ [c]) m (<[c := f ch0]> m').
Proof.
  intros Halt Hc c'. destruct (decide (c' = c)) as [-> | Hne].
  - rewrite lookup_insert_eq, bool_decide_eq_true_2.
    + by rewrite Hc.
    + apply elem_of_app. right. by apply list_elem_of_singleton.
  - rewrite lookup_insert_ne by done. rewrite (Halt c').
    destruct (decide (c' ∈ cs)) as [Hin | Hin].
    + rewrite !bool_decide_eq_true_2; [done | | done].
      apply elem_of_app. by left.
    + rewrite !bool_decide_eq_false_2; [done | | done].
      rewrite not_elem_of_app, list_elem_of_singleton. done.
Qed.

Lemma listed_S n ds d :
  ds !! n = Some d → listed (S n) ds = listed n ds ++ [channel d].
Proof.
  intros Hd. unfold listed. by rewrite (take_S_r _ _ _ Hd), fmap_app.
Qed.

Lemma listed_lookup n ds i d :
  i < n → ds !! i = Some d → channel d ∈ listed n ds.
Proof.
  intros Hi Hd. unfold listed. apply list_elem_of_fmap. exists d. split; [done|].
  apply list_elem_of_lookup. exists i. by rewrite lookup_take_lt.
Qed.

Lemma register_idem s (ch : chan_t) :
  mutex ch = false →
  set_mutex false (set_semaphore (Some s) (set_mutex true ch)) = set_semaphore (Some s) ch ∧
  set_mutex false (set_semaphore (Some s) (set_mutex true (set_semaphore (Some s) ch))) =
    set_semaphore (Some s) ch.
Proof. intros Hm. destruct ch; simpl in *. by subst. Qed.

(** The first loop, exactly: from index [i] to the end it puts the semaphore
    into the listed channels and changes nothing else. *)
Lemma register_loop_exact fr σ n : ∀ i σ' t,
  i + n = channel_count fr →
  channel_count fr ≤ length (entries fr) →
  listed_free (channel_count fr) (entries fr) σ →
  altered (set_semaphore (Some (sem fr))) (listed i (entries fr)) (chans σ) (chans σ') →
  at_pc t = register_from fr i →
  ∃ σ'' t'',
    advance n σ' t = Next σ'' t'' ∧
    altered (set_semaphore (Some (sem fr))) (listed (channel_count fr) (entries fr))
            (chans σ) (chans σ'') ∧
    sems σ'' = sems σ' ∧
    at_pc t'' = scan_from fr 0 ∧
    selected_index t'' = selected_index t ∧ stores t'' = stores t.
Proof.
  induction n as [|n IH]; intros i σ' t Hin Hlen Hfree Halt Hpc.
  - assert (i = channel_count fr) as -> by lia.
    exists σ', t. repeat split; try done.
    rewrite Hpc. unfold register_from.
    destruct (Nat.ltb_spec (channel_count fr) (channel_count fr)); [lia | done].
  - assert (i < channel_count fr) as Hi by lia.
    destruct (lookup_lt_is_Some_2 (entries fr) i) as [d Hd]; [lia|].
    destruct (Hfree i d Hi Hd) as (ch0 & Hc0 & Hm0).
    unfold register_from in Hpc. apply Nat.ltb_lt in Hi as Hi'. rewrite Hi' in Hpc.
    destruct (register_idem (sem fr) ch0 Hm0) as [Hid1 Hid2].
    assert (∃ ch', chans σ' !! channel d = Some ch' ∧ mutex ch' = false ∧
              set_mutex false (set_semaphore (Some (sem fr)) (set_mutex true ch')) =
              set_semaphore (Some (sem fr)) ch0) as (ch' & Hc' & Hm' & Hput).
    { pose proof (Halt (channel d)) as Hl. rewrite Hc0 in Hl.
      destruct (bool_decide (channel d ∈ listed i (entries fr))); simpl in Hl; eauto. }
    simpl. unfold step_thread. rewrite Hpc. unfold select_register. rewrite Hd.
    rewrite (lock_free _ _ _ _ Hc' Hm'). unfold pthread_mutex_unlock. rewrite Hput.
    destruct (IH (S i) (State (<[channel d := set_semaphore (Some (sem fr)) ch0]> (chans σ'))
                              (sems σ'))
                 (set_pc (register_from fr (S i)) t))
      as (σ'' & t'' & Hadv & Halt' & Hsems & Hpc' & Hsel & Hst); [lia | done | done | | done |].
    { simpl. rewrite (listed_S _ _ _ Hd). by apply altered_snoc. }
    exists σ'', t''. by rewrite Hadv.
Qed.

(** X16. The first loop of [channel_select] replaces the registration of
    every listed channel: after the allocation and [channel_count]
    transitions, each listed channel has the new semaphore registered,
    whatever was registered before, and is otherwise as it was; no other
    channel changed, the new semaphore has count zero and the older ones
    are as they were. *)
Theorem select_registers count lst ds σ :
  count ≤ length ds →
  listed_free count ds σ →
  ∃ σ' t',
    advance (1 + count) σ (spawn (PSelect count lst ds)) = Next σ' t' ∧
    at_pc t' = scan_from (Frame count lst ds (length (sems σ))) 0 ∧
    sems σ' = sems σ ++ [0] ∧
    altered (set_semaphore (Some (length (sems σ)))) (listed count ds)
            (chans σ) (chans σ').
Proof.
  intros Hlen Hfree.
  set (fr := Frame count lst ds (length (sems σ))).
  destruct (register_loop_exact fr σ count 0 (State (chans σ) (sems σ ++ [0]))
              (set_pc (register_from fr 0) (spawn (PSelect count lst ds))))
    as (σ' & t' & Hadv & Halt & Hsems & Hpc & _);
    [done | done | done | apply altered_nil | done |].
  exists σ', t'. split; [exact Hadv|]. done.
Qed.

Lemma altered_compose f g cs (m m1 m2 : gmap nat chan_t) :
  altered f cs m m1 → altered g cs m1 m2 → altered (g ∘ f) cs m m2.
Proof.
  intros Hf Hg c. rewrite (Hg c), (Hf c).
  destruct (bool_decide (c ∈ cs)); [|done]. by destruct (m !! c).
Qed.

Lemma not_listed_before k ds j d :
  NoDup (listed k ds) → j < k → ds !! j = Some d → channel d ∉ listed j ds.
Proof.
  intros Hnd Hj Hd Hin. unfold listed in Hin.
  apply list_elem_of_fmap in Hin as (di & Heq & Hin).
  apply list_elem_of_lookup in Hin as [i Hi].
  apply lookup_take_Some in Hi as [Hi Hij].
  assert (i = j); [|lia].
  eapply (NoDup_lookup _ i j (channel d) Hnd); unfold listed;
    rewrite list_lookup_fmap, lookup_take_lt by lia.
  - by rewrite Hi, Heq.
  - by rewrite Hd.
Qed.

Lemma scan_from_below fr j :
  j < channel_count fr → scan_from fr j = PSelectScan fr j.
Proof. intros Hj. unfold scan_from. apply Nat.ltb_lt in Hj. by rewrite Hj. Qed.

Lemma scan_from_end fr : scan_from fr (channel_count fr) = PSelectWait fr.
Proof.
  unfold scan_from. by rewrite (proj2 (Nat.ltb_ge _ _)) by lia.
Qed.

(** The scan, exactly: over descriptors that are not ready and name
    pairwise different channels it locks each channel and changes nothing
    else. *)
Lemma scan_loop_exact fr σr k n : ∀ j σ' t,
  j + n = k →
  k ≤ channel_count fr →
  channel_count fr ≤ length (entries fr) →
  listed_free k (entries fr) σr →
  (∀ i d, i < k → entries fr !! i = Some d → ready_in σr d = false) →
  NoDup (listed k (entries fr)) →
  altered (set_mutex true) (listed j (entries fr)) (chans σr) (chans σ') →
  at_pc t = scan_from fr j →
  ∃ σ'' t'',
    advance n σ' t = Next σ'' t'' ∧
    altered (set_mutex true) (listed k (entries fr)) (chans σr) (chans σ'') ∧
    sems σ'' = sems σ' ∧
    at_pc t'' = scan_from fr k ∧
    selected_index t'' = selected_index t ∧ stores t'' = stores t.
Proof.
  induction n as [|n IH]; intros j σ' t Hjn Hk Hlen Hfree Hnr Hnd Halt Hpc.
  - assert (j = k) as -> by lia. by exists σ', t.
  - assert (j < k) as Hj by lia.
    destruct (lookup_lt_is_Some_2 (entries fr) j) as [d Hd]; [lia|].
    destruct (Hfree j d Hj Hd) as (chr & Hcr & Hmr).
    pose proof (Hnr j d Hj Hd) as Hready. unfold ready_in in Hready.
    rewrite Hcr in Hready. unfold ready in Hready.
    assert (chans σ' !! channel d = Some chr) as Hc'.
    { rewrite (Halt (channel d)), bool_decide_eq_false_2; [done|].
      by eapply not_listed_before. }
    rewrite scan_from_below in Hpc by lia.
    simpl. unfold step_thread. rewrite Hpc. unfold select_scan. rewrite Hd.
    rewrite (lock_free _ _ _ _ Hc' Hmr). simpl.
    destruct (IH (S j) (keep_locked (channel d) (set_mutex true chr) σ')
                 (set_pc (scan_from fr (S j)) t))
      as (σ'' & t'' & Hadv & Halt' & Hsems & Hpc' & Hsel & Hst);
      [lia | done | done | done | done | done | | done |].
    { unfold keep_locked. simpl. rewrite (listed_S _ _ _ Hd). by apply altered_snoc. }
    exists σ'', t''.
    destruct (is_send d); rewrite Hready; simpl; by rewrite Hadv.
Qed.

Lemma registered_ready s cs σ σr d :
  altered (set_semaphore (Some s)) cs (chans σ) (chans σr) →
  ready_in σr d = ready_in σ d.
Proof.
  intros Halt. unfold ready_in. rewrite (Halt (channel d)).
  destruct (bool_decide _); [|done]. by destruct (chans σ !! channel d).
Qed.

Lemma registered_free s n ds σ σr :
  altered (set_semaphore (Some s)) (listed n ds) (chans σ) (chans σr) →
  listed_free n ds σ → listed_free n ds σr.
Proof.
  intros Halt Hfree i d Hi Hd. destruct (Hfree i d Hi Hd) as (ch & Hc & Hm).
  rewrite (Halt (channel d)), Hc.
  destruct (bool_decide _); simpl; eauto.
Qed.

Lemma listed_free_le n k ds σ : k ≤ n → listed_free n ds σ → listed_free k ds σ.
Proof. intros Hle Hfree i d Hi. apply Hfree. lia. Qed.

(** A thread that operates on a channel whose mutex is locked cannot move,
    at the entry of [channel_send], [channel_receive] or [channel_close] or
    in one of their waits. *)
Lemma locked_blocks spurious c σ t ch :
  chans σ !! c = Some ch → mutex ch = true →
  (∃ data blocking, at_pc t = PSend c data blocking) ∨
  (∃ data, at_pc t = PSendWait c data) ∨
  (∃ data blocking, at_pc t = PReceive c data blocking) ∨
  (∃ data, at_pc t = PReceiveWait c data) ∨
  at_pc t = PClose c →
  step_thread spurious σ t = Stuck.
Proof.
  intros Hc Hm Hpc. unfold step_thread.
  destruct Hpc as [(? & ? & ->) | [(? & ->) | [(? & ? & ->) | [(? & ->) | ->]]]];
    unfold channel_send, channel_send_wake, channel_receive, channel_receive_wake,
      channel_close, pthread_mutex_lock; rewrite Hc, ?Hm;
    repeat case_match; done.
Qed.

(** The first scan of a select that finds nothing ready, exactly. *)
Lemma select_falls_asleep count lst ds σ :
  count ≤ length ds →
  listed_free count ds σ →
  (∀ i d, i < count → ds !! i = Some d → ready_in σ d = false) →
  NoDup (listed count ds) →
  ∃ σ' t',
    advance (1 + count + count) σ (spawn (PSelect count lst ds)) = Next σ' t' ∧
    at_pc t' = PSelectWait (Frame count lst ds (length (sems σ))) ∧
    sems σ' = sems σ ++ [0] ∧
    altered (set_mutex true ∘ set_semaphore (Some (length (sems σ))))
            (listed count ds) (chans σ) (chans σ').
Proof.
  intros Hlen Hfree Hnr Hnd.
  set (fr := Frame count lst ds (length (sems σ))).
  destruct (register_loop_exact fr σ count 0 (State (chans σ) (sems σ ++ [0]))
              (set_pc (register_from fr 0) (spawn (PSelect count lst ds))))
    as (σr & tr & Hadv1 & Halt1 & Hsems1 & Hpc1 & _);
    [done | done | done | apply altered_nil | done |].
  simpl in Halt1, Hsems1.
  destruct (scan_loop_exact fr σr count count 0 σr tr)
    as (σ' & t' & Hadv2 & Halt2 & Hsems2 & Hpc2 & _); try done.
  { by eapply registered_free. }
  { intros i d Hi Hd. rewrite (registered_ready _ _ _ _ d Halt1). by eapply Hnr. }
  pose proof (altered_compose _ _ _ _ _ _ Halt1 Halt2) as Halt.
  exists σ', t'. split.
  { replace (1 + count + count) with (S (count + count)) by lia.
    change (advance (S (count + count)) σ (spawn (PSelect count lst ds)))
      with (advance (count + count) (State (chans σ) (sems σ ++ [0]))
              (set_pc (register_from fr 0) (spawn (PSelect count lst ds)))).
    by rewrite advance_add, Hadv1. }
  split; [rewrite Hpc2; apply (scan_from_end fr)|].
  split; [by rewrite Hsems2, Hsems1 | done].
Qed.

(** X17. A [channel_select] whose descriptors name pairwise different
    channels, none of them ready, ends its first scan in [sem_wait] on a
    semaphore of count zero with the mutex of every listed channel still
    locked: the caller cannot move, and neither can any thread that calls
    [channel_send], [channel_receive] or [channel_close] on a listed channel
    or waits in one of them. *)
Theorem select_nothing_ready count lst ds σ :
  count ≤ length ds →
  listed_free count ds σ →
  (∀ i d, i < count → ds !! i = Some d → ready_in σ d = false) →
  NoDup (listed count ds) →
  ∃ σ' t',
    advance (1 + count + count) σ (spawn (PSelect count lst ds)) = Next σ' t' ∧
    at_pc t' = PSelectWait (Frame count lst ds (length (sems σ))) ∧
    sems σ' = sems σ ++ [0] ∧
    altered (set_mutex true ∘ set_semaphore (Some (length (sems σ))))
            (listed count ds) (chans σ) (chans σ') ∧
    step_thread false σ' t' = Stuck ∧
    (∀ i d spurious t, i < count → ds !! i = Some d →
       (∃ data blocking, at_pc t = PSend (channel d) data blocking) ∨
       (∃ data, at_pc t = PSendWait (channel d) data) ∨
       (∃ data blocking, at_pc t = PReceive (channel d) data blocking) ∨
       (∃ data, at_pc t = PReceiveWait (channel d) data) ∨
       at_pc t = PClose (channel d) →
       step_thread spurious σ' t = Stuck).
Proof.
  intros Hlen Hfree Hnr Hnd.
  destruct (select_falls_asleep count lst ds σ Hlen Hfree Hnr Hnd)
    as (σ' & t' & Hadv & Hpc & Hsems & Halt).
  exists σ', t'. split; [done|]. split; [done|]. split; [done|]. split; [done|]. split.
  - unfold step_thread. rewrite Hpc. unfold select_wait. simpl.
    rewrite Hsems. by rewrite lookup_app_r, Nat.sub_diag by lia.
  - intros i d spurious t Hi Hd Hpc'.
    destruct (Hfree i d Hi Hd) as (ch & Hc & Hm).
    eapply (locked_blocks spurious (channel d) σ' t
              ((set_mutex true ∘ set_semaphore (Some (length (sems σ)))) ch));
      [|done|done].
    rewrite (Halt (channel d)), bool_decide_eq_true_2, Hc; [done|].
    by eapply listed_lookup.
Qed.

(** The call up to its commitment, exactly: the heap is the one after the
    registration with the channels of the skipped descriptors locked. *)
Lemma select_commits count lst ds σ k d :
  count ≤ length ds →
  k < count →
  ds !! k = Some d →
  listed_free count ds σ →
  ready_in σ d = true →
  (∀ i di, i < k → ds !! i = Some di → ready_in σ di = false) →
  NoDup (listed (S k) ds) →
  ∃ σr σ' t',
    advance (2 + count + k) σ (spawn (PSelect count lst ds)) = Next σ' t' ∧
    selected_index t' = Some k ∧ stores t' = [] ∧
    at_pc t' = (if is_send d
                then PSend (channel d) (DataField lst k) true
                else PReceive (channel d) (DataField lst k) true) ∧
    sems σ' = sems σ ++ [0] ∧
    altered (set_semaphore (Some (length (sems σ)))) (listed count ds) (chans σ) (chans σr) ∧
    altered (set_mutex true) (listed k ds) (chans σr) (chans σ') ∧
    channel d ∉ listed k ds.
Proof.
  intros Hlen Hk Hd Hfree Hready Hnr Hnd.
  set (fr := Frame count lst ds (length (sems σ))).
  destruct (register_loop_exact fr σ count 0 (State (chans σ) (sems σ ++ [0]))
              (set_pc (register_from fr 0) (spawn (PSelect count lst ds))))
    as (σr & tr & Hadv1 & Halt1 & Hsems1 & Hpc1 & Hsel1 & Hst1);
    [done | done | done | apply altered_nil | done |].
  simpl in Halt1, Hsems1, Hsel1, Hst1.
  assert (NoDup (listed k ds)) as Hnd'.
  { rewrite (listed_S _ _ _ Hd) in Hnd. by apply NoDup_app in Hnd as [? _]. }
  assert (channel d ∉ listed k ds) as Hnotin
    by (eapply (not_listed_before (S k)); [done | lia | done]).
  pose proof (registered_free _ _ _ _ _ Halt1 Hfree) as Hfreer.
  destruct (scan_loop_exact fr σr k k 0 σr tr)
    as (σ2 & t2 & Hadv2 & Halt2 & Hsems2 & Hpc2 & Hsel2 & Hst2); try done.
  { simpl. lia. }
  { eapply listed_free_le; [|done]. simpl. lia. }
  { intros i di Hi Hdi. rewrite (registered_ready _ _ _ _ di Halt1). by eapply Hnr. }
  destruct (Hfreer k d Hk Hd) as (chr & Hcr & Hmr).
  assert (chans σ2 !! channel d = Some chr) as Hc2.
  { by rewrite (Halt2 (channel d)), bool_decide_eq_false_2. }
  pose proof (registered_ready _ _ _ _ d Halt1) as Hreadyr. rewrite Hready in Hreadyr.
  unfold ready_in in Hreadyr. rewrite Hcr in Hreadyr. unfold ready in Hreadyr.
  rewrite scan_from_below in Hpc2 by done.
  exists σr, σ2,
    (set_pc (if is_send d
             then PSend (channel d) (DataField lst k) true
             else PReceive (channel d) (DataField lst k) true)
            (set_selected_index k t2)).
  split.
  { replace (2 + count + k) with (S (count + (k + 1))) by lia.
    change (advance (S (count + (k + 1))) σ (spawn (PSelect count lst ds)))
      with (advance (count + (k + 1)) (State (chans σ) (sems σ ++ [0]))
              (set_pc (register_from fr 0) (spawn (PSelect count lst ds)))).
    rewrite advance_add, Hadv1, advance_add, Hadv2. simpl.
    unfold step_thread. rewrite Hpc2. unfold select_scan. simpl entries. rewrite Hd.
    rewrite (lock_free _ _ _ _ Hc2 Hmr). simpl.
    rewrite (unlock_unchanged _ _ _ Hc2 Hmr).
    by destruct (is_send d); rewrite Hreadyr. }
  split; [done|]. split; [simpl; by rewrite Hst2, Hst1|].
  split; [by destruct (is_send d)|].
  split; [by rewrite Hsems2, Hsems1|]. done.
Qed.

(** X18. The channels of the descriptors that [channel_select] skipped stay
    locked: when the call has committed to descriptor [k] the mutex of the
    channel of every descriptor before [k] is locked, and it still is after
    the committed [channel_send] or [channel_receive] has made its
    transition; no thread can send to, receive from or close these channels
    any more. *)
Theorem select_leaves_locked count lst ds σ k d :
  count ≤ length ds →
  k < count →
  ds !! k = Some d →
  listed_free count ds σ →
  ready_in σ d = true →
  (∀ i di, i < k → ds !! i = Some di → ready_in σ di = false) →
  NoDup (listed (S k) ds) →
  ∃ σ' t',
    advance (2 + count + k) σ (spawn (PSelect count lst ds)) = Next σ' t' ∧
    selected_index t' = Some k ∧
    (∀ i di, i < k → ds !! i = Some di →
       (∃ ch', chans σ' !! channel di = Some ch' ∧ mutex ch' = true) ∧
       (∀ σ'' t'', step_thread false σ' t' = Next σ'' t'' →
          ∃ ch'', chans σ'' !! channel di = Some ch'' ∧ mutex ch'' = true)).
Proof.
  intros Hlen Hk Hd Hfree Hready Hnr Hnd.
  destruct (select_commits count lst ds σ k d)
    as (σr & σ' & t' & Hadv & Hsel & _ & Hpc & _ & Halt1 & Halt2 & Hnotin); try done.
  exists σ', t'. split; [done|]. split; [done|].
  intros i di Hi Hdi.
  destruct (Hfree i di ltac:(lia) Hdi) as (ch & Hc & Hm).
  assert (channel di ∈ listed k ds) as Hin by (by eapply listed_lookup).
  assert (∃ ch', chans σ' !! channel di = Some ch' ∧ mutex ch' = true) as (ch' & Hc' & Hm').
  { rewrite (Halt2 (channel di)), bool_decide_eq_true_2, (Halt1 (channel di)), Hc by done.
    destruct (bool_decide _); simpl; eauto. }
  split; [eauto|]. intros σ'' t'' Hstep.
  assert (channel d ≠ channel di) as Hne by (intros Heq; by rewrite Heq in Hnotin).
  exists ch'. split; [|done]. rewrite <- Hc'.
  unfold step_thread in Hstep. rewrite Hpc in Hstep.
  destruct (is_send d);
    unfold channel_send, channel_receive, pthread_mutex_lock, send_wait, send_add,
      send_done, receive_wait, receive_remove, receive_done, ret,
      pthread_mutex_unlock, post_semaphore, sem_post in Hstep;
    repeat case_match; simplify_eq; simpl; by rewrite lookup_insert_ne.
Qed.

Lemma step_entry spurious σ t σ' t' :
  step_thread spurious σ t = Next σ' t' → entry (at_pc t).
Proof.
  unfold step_thread. destruct (at_pc t); try done; by destruct spurious.
Qed.

(** A call continues where the transitions made so far have left it. *)
Lemma call_advance n : ∀ σ t σ' t' m,
  advance n σ t = Next σ' t' → call (n + m) σ t = call m σ' t'.
Proof.
  induction n as [|n IH]; intros σ t σ' t' m Hadv; simpl in Hadv.
  - by simplify_eq.
  - destruct (step_thread false σ t) as [σ1 t1| |] eqn:Hstep; [|done..].
    pose proof (step_entry _ _ _ _ _ Hstep) as He.
    simpl. rewrite Hstep, (IH _ _ _ _ m Hadv).
    by destruct (at_pc t).
Qed.

Lemma registered_closed s cs σ σr c ch :
  altered (set_semaphore (Some s)) cs (chans σ) (chans σr) →
  chans σ !! c = Some ch →
  ∃ chr, chans σr !! c = Some chr ∧ buffer chr = buffer ch ∧
         open chr = open ch ∧ mutex chr = mutex ch ∧
         (c ∈ cs → semaphore chr = Some s).
Proof.
  intros Halt Hc. rewrite (Halt c), Hc. destruct (bool_decide (c ∈ cs)) eqn:Hin; simpl.
  - eexists. repeat split; done.
  - eexists. repeat split; try done. intros Hin'.
    by apply bool_decide_eq_false_1 in Hin.
Qed.

(** X19. [channel_select] reports a closed channel only through a ready
    descriptor.  The caller is on its own, the listed channels are allocated
    with their mutexes free, and the channels of the descriptors [0..k] are
    pairwise different.  If the first ready descriptor [k] names a closed
    channel (a send with room in the buffer, or a receive with data in it),
    the call returns [CLOSED_ERROR] with [selected_index] set to [k], stores
    nothing and leaves the buffer of that channel as it was. *)
Theorem select_reports_closed count lst ds σ k d ch :
  count ≤ length ds →
  k < count →
  ds !! k = Some d →
  listed_free count ds σ →
  ready_in σ d = true →
  (∀ i di, i < k → ds !! i = Some di → ready_in σ di = false) →
  NoDup (listed (S k) ds) →
  chans σ !! channel d = Some ch →
  open ch = false →
  ∃ σ' t' ch',
    call (3 + count + k) σ (spawn (PSelect count lst ds)) = Returned σ' t' ∧
    returned t' = Some CLOSED_ERROR ∧
    selected_index t' = Some k ∧
    stores t' = [] ∧
    chans σ' !! channel d = Some ch' ∧
    buffer ch' = buffer ch ∧ open ch' = false.
Proof.
  intros Hlen Hk Hd Hfree Hready Hnr Hnd Hc Ho.
  destruct (select_commits count lst ds σ k d)
    as (σr & σ' & t' & Hadv & Hsel & Hst & Hpc & _ & Halt1 & Halt2 & Hnotin); try done.
  destruct (Hfree k d Hk Hd) as (ch0 & Hc0 & Hm). simplify_eq.
  destruct (registered_closed _ _ _ _ _ _ Halt1 Hc) as (chr & Hcr & Hbr & Hor & Hmr & _).
  assert (chans σ' !! channel d = Some chr) as Hc'.
  { by rewrite (Halt2 (channel d)), bool_decide_eq_false_2. }
  rewrite Ho in Hor. rewrite Hm in Hmr.
  exists σ', (set_pc (PReturn CLOSED_ERROR) t'), chr.
  split; [|done].
  replace (3 + count + k) with ((2 + count + k) + 1) by lia.
  rewrite (call_advance _ _ _ _ _ 1 Hadv). simpl. rewrite Hpc.
  unfold step_thread. rewrite Hpc.
  destruct (is_send d).
  - by rewrite (send_closed _ _ _ _ _ _ Hc' Hmr Hor).
  - by rewrite (channel_receive_closed _ _ _ _ _ _ Hc' Hmr Hor).
Qed.

End SelectMore.

(** ** channel_select with a FIFO buffer *)
Section SelectFifo.
Context {B : Buffer} (contents : buffer_t → list ptr) {F : BufferFifo B contents}.

Lemma posted_new (l : list nat) : posted (Some (length l)) (l ++ [0]) = l ++ [1].
Proof.
  unfold posted. apply list_eq. intros i.
  destruct (decide (i = length l)) as [-> | Hne].
  - rewrite list_lookup_alter_eq, !lookup_app_r, Nat.sub_diag by lia. done.
  - rewrite list_lookup_alter_ne by done.
    destruct (decide (i < length l)).
    + by rewrite !lookup_app_l by lia.
    + rewrite !lookup_app_r by lia.
      destruct (i - length l) as [|j] eqn:Hj; [lia|]. done.
Qed.

(** X20. The caller is on its own, the listed channels are allocated with
    their mutexes free, and the channels of the descriptors [0..k] are
    pairwise different.  A [channel_select] whose first ready descriptor [k]
    is then a receive on an open channel that buffers [x] as its oldest value
    returns [SUCCESS] with [selected_index] set to [k]; [x] is stored in the
    [data] field of that descriptor and nowhere else, the rest of the buffer
    stays, and the call has posted its own semaphore once. *)
Theorem select_receives count lst ds σ k d ch x xs :
  count ≤ length ds →
  k < count →
  ds !! k = Some d →
  listed_free count ds σ →
  (∀ i di, i < k → ds !! i = Some di → ready_in σ di = false) →
  NoDup (listed (S k) ds) →
  is_send d = false →
  chans σ !! channel d = Some ch →
  open ch = true →
  contents (buffer ch) = x :: xs →
  ∃ σ' t' ch',
    call (3 + count + k) σ (spawn (PSelect count lst ds)) = Returned σ' t' ∧
    returned t' = Some SUCCESS ∧
    selected_index t' = Some k ∧
    stores t' = [(DataField lst k, x)] ∧
    chans σ' !! channel d = Some ch' ∧
    contents (buffer ch') = xs ∧ open ch' = true ∧ mutex ch' = false ∧
    sems σ' = sems σ ++ [1].
Proof.
  intros Hlen Hk Hd Hfree Hnr Hnd Hrecv Hc Ho Hxs.
  assert (buffer_current_size (buffer ch) ≠ 0%N) as Hdata.
  { rewrite buffer_size_contents, Hxs. simpl. lia. }
  assert (ready_in σ d = true) as Hready.
  { unfold ready_in, ready. rewrite Hc, Hrecv. by apply negb_true_iff, N.eqb_neq. }
  destruct (select_commits count lst ds σ k d)
    as (σr & σc & tc & Hadv & Hsel & Hst & Hpc & Hsems & Halt1 & Halt2 & Hnotin); try done.
  rewrite Hrecv in Hpc.
  destruct (Hfree k d Hk Hd) as (ch0 & Hc0 & Hm). simplify_eq.
  destruct (registered_closed _ _ _ _ _ _ Halt1 Hc) as (chr & Hcr & Hbr & Hor & Hmr & Hsr).
  assert (chans σc !! channel d = Some chr) as Hcc.
  { by rewrite (Halt2 (channel d)), bool_decide_eq_false_2. }
  rewrite Ho in Hor. rewrite Hm in Hmr. rewrite <- Hbr in Hdata, Hxs.
  destruct (channel_receive_outcome (channel d) (DataField lst k) true σc tc chr
              Hcc Hmr Hor Hdata ltac:(done))
    as (σ' & ch' & Hcall & Hc' & Hb' & Ho' & _ & Hm' & _ & _ & Hsems' & _).
  destruct (buffer_remove_cons (buffer chr) x xs Hxs) as (Hx & Hrest & _).
  rewrite Hx in Hcall.
  exists σ', (Thread (PReturn SUCCESS) (selected_index tc)
                     ((DataField lst k, x) :: stores tc)), ch'.
  split.
  { replace (3 + count + k) with ((2 + count + k) + 1) by lia.
    rewrite (call_advance _ _ _ _ _ 1 Hadv). simpl. rewrite Hpc.
    unfold step_thread. rewrite Hpc. by rewrite Hcall. }
  split; [done|]. split; [done|]. split; [simpl; by rewrite Hst|].
  split; [done|]. split; [by rewrite Hb'|]. split; [done|]. split; [done|].
  rewrite Hsems', Hsems, Hsr; [apply posted_new|]. by eapply listed_lookup.
Qed.

(** X21. The caller is on its own, the listed channels are allocated with
    their mutexes free, and the channels of the descriptors [0..k] are
    pairwise different.  A [channel_select] whose first ready descriptor [k]
    is then a send on an open channel with room returns [SUCCESS] with
    [selected_index] set to [k]; what it appends to the buffer is the address
    of the [data] field of that descriptor, [&channel_list[k].data], whatever
    the field holds. *)
Theorem select_sends_address count lst ds σ k d ch :
  count ≤ length ds →
  k < count →
  ds !! k = Some d →
  listed_free count ds σ →
  (∀ i di, i < k → ds !! i = Some di → ready_in σ di = false) →
  NoDup (listed (S k) ds) →
  is_send d = true →
  chans σ !! channel d = Some ch →
  open ch = true →
  (N.of_nat (length (contents (buffer ch))) < buffer_capacity (buffer ch))%N →
  ∃ σ' t' ch',
    call (3 + count + k) σ (spawn (PSelect count lst ds)) = Returned σ' t' ∧
    returned t' = Some SUCCESS ∧
    selected_index t' = Some k ∧
    chans σ' !! channel d = Some ch' ∧
    contents (buffer ch') = contents (buffer ch) ++ [DataField lst k] ∧
    open ch' = true ∧ mutex ch' = false.
Proof.
  intros Hlen Hk Hd Hfree Hnr Hnd Hsend Hc Ho Hroom.
  assert (ready_in σ d = true) as Hready.
  { unfold ready_in, ready. rewrite Hc, Hsend. apply N.ltb_lt.
    by rewrite buffer_size_contents. }
  destruct (select_commits count lst ds σ k d)
    as (σr & σc & tc & Hadv & Hsel & Hst & Hpc & Hsems & Halt1 & Halt2 & Hnotin); try done.
  rewrite Hsend in Hpc.
  destruct (Hfree k d Hk Hd) as (ch0 & Hc0 & Hm). simplify_eq.
  destruct (registered_closed _ _ _ _ _ _ Halt1 Hc) as (chr & Hcr & Hbr & Hor & Hmr & Hsr).
  assert (chans σc !! channel d = Some chr) as Hcc.
  { by rewrite (Halt2 (channel d)), bool_decide_eq_false_2. }
  rewrite Ho in Hor. rewrite Hm in Hmr. rewrite <- Hbr in Hroom.
  assert (buffer_capacity (buffer chr) ≠ buffer_current_size (buffer chr)) as Hne.
  { rewrite buffer_size_contents. lia. }
  assert ((buffer_add (DataField lst k) (buffer chr)).1 = true) as Hok.
  { apply buffer_add_room. by rewrite buffer_size_contents. }
  destruct (buffer_add_true _ _ Hok) as [Hcont _].
  destruct (channel_send_outcome (channel d) (DataField lst k) true σc tc chr
              Hcc Hmr Hor Hne)
    as (σ' & ch' & Hcall & Hc' & Hb' & Ho' & _ & Hm' & _).
  rewrite Hok in Hcall.
  exists σ', (set_pc (PReturn SUCCESS) tc), ch'.
  split.
  { replace (3 + count + k) with ((2 + count + k) + 1) by lia.
    rewrite (call_advance _ _ _ _ _ 1 Hadv). simpl. rewrite Hpc.
    unfold step_thread. rewrite Hpc. by rewrite Hcall. }
  split; [done|]. split; [done|]. split; [done|].
  split; [by rewrite Hb', Hcont, Hbr|]. done.
Qed.

End SelectFifo.

(** ** A select that sleeps on locked channels *)
Section Asleep.
Context {B : Buffer}.

Lemma locked_put (m : gmap nat chan_t) c ch0 X s :
  (∀ c ch, m !! c = Some ch → semaphore ch = Some s → mutex ch = true) →
  m !! c = Some ch0 → mutex ch0 = false →
  (semaphore X = Some s → semaphore ch0 = Some s) →
  ∀ c1 ch1, <[c := X]> m !! c1 = Some ch1 → semaphore ch1 = Some s → mutex ch1 = true.
Proof.
  intros Hl Hc Hm HX c1 ch1. destruct (decide (c = c1)) as [-> | Hne].
  - rewrite lookup_insert_eq. intros [= <-] Hs.
    pose proof (Hl _ _ Hc (HX Hs)). congruence.
  - rewrite lookup_insert_ne by done. apply Hl.
Qed.

Lemma post_other (m : gmap nat chan_t) c ch0 s n (l : list nat) :
  (∀ c ch, m !! c = Some ch → semaphore ch = Some s → mutex ch = true) →
  m !! c = Some ch0 → mutex ch0 = false → semaphore ch0 = Some n →
  l !! s = Some 0 → alter S n l !! s = Some 0.
Proof.
  intros Hl Hc Hm Hs Hz. rewrite list_lookup_alter_ne; [done|].
  intros ->. pose proof (Hl _ _ Hc Hs). congruence.
Qed.

(** A transition of another thread does not post the sleeper's semaphore,
    registers it nowhere and does not unlock a channel that has it. *)
Lemma step_keeps_asleep spurious s σ t σ' t' :
  sems σ !! s = Some 0 →
  (∀ c ch, chans σ !! c = Some ch → semaphore ch = Some s → mutex ch = true) →
  ¬ uses_semaphore s (at_pc t) →
  step_thread spurious σ t = Next σ' t' →
  sems σ' !! s = Some 0 ∧
  (∀ c ch, chans σ' !! c = Some ch → semaphore ch = Some s → mutex ch = true) ∧
  ¬ uses_semaphore s (at_pc t').
Proof.
  intros Hz Hl Hu Hstep.
  pose proof (lookup_lt_Some _ _ _ Hz) as Hlt.
  unfold_step Hstep. unfold register_from, scan_from, store in Hstep.
  repeat case_match; simplify_eq; simpl in *;
    (split; [|split]);
    try done;
    try (by eapply post_other);
    try (by eapply locked_put);
    try (by rewrite lookup_app_l);
    try (intros Heq; lia);
    try (eapply locked_put; [done | done | done | simpl; intros [= Heq]; by destruct Hu]);
    try (rewrite list_lookup_insert_ne; [done | intros Heq; by destruct Hu]).
  - (* channel_create: no semaphore is registered in the new channel *)
    intros c ch. destruct (decide (fresh (dom (chans σ)) = c)) as [<- | Hne].
    + rewrite lookup_insert_eq. by intros [= <-].
    + rewrite lookup_insert_ne by done. apply Hl.
  - (* channel_destroy *)
    intros c1 ch Hd. apply lookup_delete_Some in Hd as [_ Hd]. by eapply Hl.
Qed.

(** One step of the machine keeps the sleeper asleep: it cannot move itself,
    and the others do not wake it. *)
Lemma asleep_step s tid l (m m1 : machine) :
  select_asleep s tid m → step l m = Some m1 → select_asleep s tid m1.
Proof.
  intros ((t & fr & Ht & Hpc & Hsem) & Hz & Hl & Hothers) Hstep.
  unfold step in Hstep.
  destruct (match l with Run tid => (false, tid) | Spurious tid => (true, tid) end)
    as [spurious tid'].
  destruct (threads m !! tid') as [t0|] eqn:Ht0; [|done].
  destruct (step_thread spurious (shared m) t0) as [σ1 t1| |] eqn:Hst; [|done..].
  simplify_eq.
  destruct (decide (tid' = tid)) as [-> | Hne].
  - (* the sleeper itself cannot move *)
    simplify_eq. unfold step_thread in Hst. rewrite Hpc in Hst.
    destruct spurious; [done|]. unfold select_wait in Hst. by rewrite Hz in Hst.
  - destruct (step_keeps_asleep _ _ _ _ _ _ Hz Hl (Hothers _ _ Hne Ht0) Hst)
      as (Hz1 & Hl1 & Hu1).
    split; [|split; [done|split; [done|]]]; simpl.
    + exists t, fr. by rewrite list_lookup_insert_ne.
    + intros tid'' t'' Hne'' Hl''.
      destruct (decide (tid' = tid'')) as [-> | Hne3].
      * rewrite list_lookup_insert_eq in Hl'' by (by eapply lookup_lt_Some).
        by simplify_eq.
      * rewrite list_lookup_insert_ne in Hl'' by done. by eapply Hothers.
Qed.

Lemma select_sleeps_asleep_run s tid sched (m m' : machine) :
  select_asleep s tid m → run sched m = Some m' → select_asleep s tid m'.
Proof.
  revert m. induction sched as [|l sched IH]; intros m Hsleep Hrun; simpl in Hrun.
  - by simplify_eq.
  - destruct (step l m) as [m1|] eqn:Hstep; [|done].
    apply (IH m1); [by eapply asleep_step | done].
Qed.

(** X22. A select that sleeps on locked channels never wakes: if a thread
    stands in the [sem_wait] of [channel_select] on a semaphore of count
    zero, every channel that has this semaphore registered is locked and no
    other thread runs a select with it, then under every schedule, whatever
    the other threads do, the same holds afterwards: the thread is still in
    [sem_wait] and its semaphore still has count zero. *)
Theorem select_sleeps_forever s tid sched (m m' : machine) :
  select_asleep s tid m →
  run sched m = Some m' →
  select_asleep s tid m'.
Proof.
  revert m. induction sched as [|l sched IH]; intros m Hsleep Hrun; simpl in Hrun.
  - by simplify_eq.
  - destruct (step l m) as [m1|] eqn:Hstep; [|done].
    eapply IH; [|exact Hrun]. by eapply asleep_step.
Qed.

End Asleep.

(** ** What follows for the callers *)
Section Consequences.
Context {B : Buffer}.

(** X23. A [channel_select] that found nothing ready never returns: on a
    heap whose registered semaphores are all allocated, with the listed
    channels pairwise different, unlocked and none of them ready, the caller
    reaches [sem_wait] when it has made its first scan undisturbed, and from
    then on, whatever the other threads do and however they are scheduled,
    it stays in [sem_wait]. *)
Theorem select_never_returns count lst ds σ others :
  count ≤ length ds →
  listed_free count ds σ →
  (∀ i d, i < count → ds !! i = Some d → ready_in σ d = false) →
  NoDup (listed count ds) →
  (∀ c ch s, chans σ !! c = Some ch → semaphore ch = Some s → s < length (sems σ)) →
  Forall (λ t, ¬ uses_semaphore (length (sems σ)) (at_pc t)) others →
  ∃ σ' t',
    advance (1 + count + count) σ (spawn (PSelect count lst ds)) = Next σ' t' ∧
    ∀ sched m',
      run sched (Machine σ' (t' :: others)) = Some m' →
      ∃ t'' fr, threads m' !! 0 = Some t'' ∧ at_pc t'' = PSelectWait fr.
Proof.
  intros Hlen Hfree Hnr Hnd Hwf Hothers.
  destruct (select_falls_asleep count lst ds σ Hlen Hfree Hnr Hnd)
    as (σ' & t' & Hadv & Hpc & Hsems & Halt).
  exists σ', t'. split; [done|]. intros sched m' Hrun.
  assert (select_asleep (length (sems σ)) 0 (Machine σ' (t' :: others))) as Hsleep.
  { split; [|split; [|split]]; simpl.
    - by eexists t', _.
    - by rewrite Hsems, lookup_app_r, Nat.sub_diag by lia.
    - intros c ch Hc Hs. rewrite (Halt c) in Hc.
      destruct (bool_decide (c ∈ listed count ds)).
      + destruct (chans σ !! c); simpl in Hc; by simplify_eq.
      + pose proof (Hwf c ch _ Hc Hs). lia.
    - intros tid' t0 Hne Ht0. destruct tid' as [|tid']; [done|]. simpl in Ht0.
      by apply (proj1 (Forall_lookup _ _) Hothers tid' t0). }
  destruct (select_sleeps_asleep_run _ _ _ _ _ Hsleep Hrun) as ((t'' & fr & Ht & Hpc'' & _) & _).
  eauto.
Qed.

(** X24. A receiver that waited and is woken on a channel that has been
    closed while it holds data leaves the loop (the buffer is not empty),
    skips the removal (the channel is closed) and returns [SUCCESS]: nothing
    is stored through its output pointer and the buffer is as it was. *)
Theorem receive_success_without_value spurious c data σ t ch cv :
  chans σ !! c = Some ch →
  mutex ch = false →
  open ch = false →
  buffer_current_size (buffer ch) ≠ 0%N →
  cond_wake spurious (recv ch) = Some cv →
  ∃ σ' ch',
    channel_receive_wake spurious c data σ t = Next σ' (set_pc (PReturn SUCCESS) t) ∧
    stores (set_pc (PReturn SUCCESS) t) = stores t ∧
    chans σ' !! c = Some ch' ∧ buffer ch' = buffer ch ∧ open ch' = false.
Proof.
  intros Hc Hm Ho Hdata Hcv.
  destruct (receive_wake_closed_data spurious c data σ t ch cv Hc Hm Ho Hdata Hcv)
    as (σ' & ch' & Hwake & Hrest).
  by exists σ', ch'.
Qed.

End Consequences.

(** ** The further properties at concrete inputs *)
Section MoreRuns.
Local Existing Instance list_Buffer.

(** The descriptors of a short list, one by one. *)
Ltac each_descriptor :=
  let i := fresh "i" in
  let d := fresh "d" in
  let Hi := fresh "Hi" in
  let Hd := fresh "Hd" in
  intros i d Hi Hd;
  repeat (destruct i as [|i]; [simpl in Hd; injection Hd as <- | ]);
  try (exfalso; simpl in Hi; lia).

Lemma create_allocates_witness :
  ∃ c σ' ch,
    channel_create 2 heap0 (spawn (PCreate 2)) =
      Next σ' (set_pc (PReturnChan (Some c)) (spawn (PCreate 2))) ∧
    chans heap0 !! c = None ∧ chans σ' !! c = Some ch ∧ open ch = true.
Proof.
  destruct (create_allocates 2 heap0 (spawn (PCreate 2))) as [_ Hpos].
  destruct (Hpos ltac:(discriminate)) as (c & σ' & ch & H1 & H2 & H3 & _ & _ & H4 & _).
  exists c, σ', ch. repeat split; assumption.
Defined.

Lemma destroy_needs_closed_witness :
  channel_destroy 0 heap1 (spawn (PDestroy 0)) =
    Next heap1 (set_pc (PReturn DESTROY_ERROR) (spawn (PDestroy 0))) ∧
  ∃ σ', channel_destroy 0 heap_closed (spawn (PDestroy 0)) =
          Next σ' (set_pc (PReturn SUCCESS) (spawn (PDestroy 0))) ∧
        chans σ' !! 0 = None.
Proof.
  split.
  - exact (proj1 (destroy_needs_closed 0 heap1 (spawn (PDestroy 0))
                    (chan_with 1 [] None true) eq_refl) eq_refl).
  - destruct (proj2 (destroy_needs_closed 0 heap_closed (spawn (PDestroy 0))
                       (chan_with 2 [Addr 2; Addr 3] None false) eq_refl) eq_refl)
      as (σ' & H1 & H2 & _).
    exists σ'. split; assumption.
Defined.

Lemma create_close_destroy_witness :
  ∃ c t1 σ1 t2 t3 σ2 t4,
    invoke 1 (PCreate 2) heap0 = Some (t1, σ1) ∧ at_pc t1 = PReturnChan (Some c) ∧
    invoke 1 (PDestroy c) σ1 = Some (t2, σ1) ∧ returned t2 = Some DESTROY_ERROR ∧
    invoke 1 (PClose c) σ1 = Some (t3, σ2) ∧ returned t3 = Some SUCCESS ∧
    invoke 1 (PDestroy c) σ2 = Some (t4, heap0) ∧ returned t4 = Some SUCCESS.
Proof. exact (create_close_destroy 2 heap0 ltac:(discriminate)). Defined.

Lemma close_is_final_witness :
  ∃ σ',
    channel_close 0 heap_full (spawn (PClose 0)) =
      Next σ' (set_pc (PReturn SUCCESS) (spawn (PClose 0))) ∧
    channel_send 0 (Addr 2) true σ' (spawn (PSend 0 (Addr 2) true)) =
      Next σ' (set_pc (PReturn CLOSED_ERROR) (spawn (PSend 0 (Addr 2) true))) ∧
    channel_receive 0 (Addr 100) false σ' (spawn (PReceive 0 (Addr 100) false)) =
      Next σ' (set_pc (PReturn CLOSED_ERROR) (spawn (PReceive 0 (Addr 100) false))).
Proof.
  destruct (close_is_final 0 heap_full (spawn (PClose 0)) (chan_with 1 [Addr 1] None true)
              eq_refl eq_refl eq_refl) as (σ' & Hclose & Hsend & Hrecv & _).
  exists σ'. split; [exact Hclose|]. split; [apply Hsend | apply Hrecv].
Defined.

Lemma receive_nonblocking_empty_witness :
  channel_receive 0 (Addr 100) false heap1 (spawn (PReceive 0 (Addr 100) false)) =
    Next heap1 (set_pc (PReturn WOULDBLOCK) (spawn (PReceive 0 (Addr 100) false))).
Proof.
  exact (proj1 (receive_nonblocking_empty 0 (Addr 100) heap1
                  (spawn (PReceive 0 (Addr 100) false)) (chan_with 1 [] None true)
                  eq_refl eq_refl eq_refl eq_refl)).
Defined.

Lemma send_waits_while_full_witness :
  ∃ σ', channel_send 0 (Addr 2) true heap_full (spawn (PSend 0 (Addr 2) true)) =
          Next σ' (set_pc (PSendWait 0 (Addr 2)) (spawn (PSend 0 (Addr 2) true))) ∧
        same_but_waiters heap_full σ' 0.
Proof.
  exact (proj1 (send_waits_while_full 0 (Addr 2) heap_full (spawn (PSend 0 (Addr 2) true))
                  (chan_with 1 [Addr 1] None true) eq_refl eq_refl eq_refl eq_refl)).
Defined.

Lemma receive_waits_while_empty_witness :
  ∃ σ', channel_receive 0 (Addr 100) true heap1 (spawn (PReceive 0 (Addr 100) true)) =
          Next σ' (set_pc (PReceiveWait 0 (Addr 100)) (spawn (PReceive 0 (Addr 100) true))) ∧
        same_but_waiters heap1 σ' 0.
Proof.
  exact (proj1 (receive_waits_while_empty 0 (Addr 100) heap1
                  (spawn (PReceive 0 (Addr 100) true))
                  (chan_with 1 [] None true) eq_refl eq_refl eq_refl eq_refl)).
Defined.

Lemma send_with_room_witness :
  ∃ σ' ch',
    channel_send 0 (Addr 5) false heap_selecting (spawn (PSend 0 (Addr 5) false)) =
      Next σ' (set_pc (PReturn SUCCESS) (spawn (PSend 0 (Addr 5) false))) ∧
    chans σ' !! 0 = Some ch' ∧
    lb_items (buffer ch') = [Addr 5] ∧
    sems σ' = [1].
Proof.
  destruct (send_with_room 0 (Addr 5) false heap_selecting (spawn (PSend 0 (Addr 5) false))
              (chan_with 1 [] (Some 0) true) eq_refl eq_refl eq_refl ltac:(discriminate))
    as (σ' & ch' & H1 & H2 & H3 & _ & _ & _ & _ & _ & H4 & _).
  exists σ', ch'. split; [exact H1|]. split; [exact H2|].
  split; [by rewrite H3 | exact H4].
Defined.

Lemma receive_with_data_witness :
  ∃ σ' ch',
    channel_receive 0 (Addr 100) true (heap_with 1 [Addr 1] (Some 0) true [0])
                    (spawn (PReceive 0 (Addr 100) true)) =
      Next σ' (Thread (PReturn SUCCESS) None [(Addr 100, Addr 1)]) ∧
    chans σ' !! 0 = Some ch' ∧
    lb_items (buffer ch') = [] ∧
    sems σ' = [1].
Proof.
  destruct (receive_with_data 0 (Addr 100) true (heap_with 1 [Addr 1] (Some 0) true [0])
              (spawn (PReceive 0 (Addr 100) true))
              (chan_with 1 [Addr 1] (Some 0) true)
              eq_refl eq_refl eq_refl ltac:(discriminate) ltac:(discriminate))
    as (σ' & ch' & H1 & H2 & H3 & _ & _ & _ & _ & _ & H4 & _).
  exists σ', ch'. split; [exact H1|]. split; [exact H2|].
  split; [by rewrite H3 | exact H4].
Defined.

Lemma close_wakes_waiters_witness :
  ∃ σ' σ'' ch'',
    channel_close 0 heap_sender_waits (spawn (PClose 0)) =
      Next σ' (set_pc (PReturn SUCCESS) (spawn (PClose 0))) ∧
    channel_send_wake false 0 (Addr 2) σ' (spawn (PSendWait 0 (Addr 2))) =
      Next σ'' (set_pc (PReturn CLOSED_ERROR) (spawn (PSendWait 0 (Addr 2)))) ∧
    chans σ'' !! 0 = Some ch'' ∧ lb_items (buffer ch'') = [Addr 1].
Proof.
  destruct (close_wakes_waiters 0 heap_sender_waits (spawn (PClose 0))
              (chan_waiting 1 [Addr 1] pthread_cond_init (Cond 1 0) true)
              eq_refl eq_refl eq_refl) as (σ' & Hclose & Hsend & _).
  destruct (Hsend eq_refl ltac:(simpl; lia) (Addr 2) (spawn (PSendWait 0 (Addr 2))))
    as (σ'' & ch'' & H1 & H2 & H3).
  exists σ', σ'', ch''. split; [exact Hclose|]. split; [exact H1|].
  split; [exact H2 | by rewrite H3].
Defined.

Lemma within_one cap items s o semaphores :
  (N.of_nat (length items) ≤ cap)%N →
  within_capacity lb_items (heap_with cap items s o semaphores).
Proof.
  intros Hle c ch Hc. unfold heap_with in Hc. simpl in Hc.
  apply lookup_singleton_Some in Hc as [_ <-]. exact Hle.
Qed.

Lemma capacity_invariant_witness :
  ∃ m', run [Run 0; Run 1; Run 2; Run 3; Run 1] racing = Some m' ∧
        within_capacity lb_items (shared m').
Proof.
  destruct (run [Run 0; Run 1; Run 2; Run 3; Run 1] racing) as [m'|] eqn:Hrun;
    [|vm_compute in Hrun; discriminate].
  exists m'. split; [reflexivity|].
  refine (capacity_invariant lb_items (F := list_Buffer_fifo) _ racing m' _ Hrun).
  apply within_one. simpl. lia.
Defined.

Lemma capacity_is_fixed_witness :
  let t := spawn (PSend 0 (Addr 1) true) in
  step_thread false heap1 t =
    Next (heap_with 1 [Addr 1] None true []) (set_pc (PReturn SUCCESS) t) ∧
  lb_capacity (buffer (chan_with 1 [Addr 1] None true)) =
  lb_capacity (buffer (chan_with 1 [] None true)).
Proof.
  intros t.
  assert (step_thread false heap1 t =
          Next (heap_with 1 [Addr 1] None true []) (set_pc (PReturn SUCCESS) t)) as Hstep
    by (vm_compute; reflexivity).
  split; [exact Hstep|].
  refine (capacity_is_fixed lb_items (F := list_Buffer_fifo) false heap1 t _ _ 0 _ _
            _ Hstep eq_refl eq_refl).
  apply within_one. simpl. lia.
Defined.

Lemma send_never_other_error_witness :
  let t := spawn (PSend 0 (Addr 1) false) in
  step_thread false heap1 t =
    Next (heap_with 1 [Addr 1] None true []) (set_pc (PReturn SUCCESS) t) ∧
  returned (set_pc (PReturn SUCCESS) t) ≠ Some OTHER_ERROR.
Proof.
  intros t.
  assert (step_thread false heap1 t =
          Next (heap_with 1 [Addr 1] None true []) (set_pc (PReturn SUCCESS) t)) as Hstep
    by (vm_compute; reflexivity).
  split; [exact Hstep|].
  refine (send_never_other_error lb_items (F := list_Buffer_fifo) false 0 (Addr 1) false
            heap1 t _ _ _ (or_introl eq_refl) Hstep).
  apply within_one. simpl. lia.
Defined.

Lemma send_hands_to_receiver_witness :
  ∃ σ1 σ2 ch2,
    channel_send 0 (Addr 5) true heap_receiver_waits (spawn (PSend 0 (Addr 5) true)) =
      Next σ1 (set_pc (PReturn SUCCESS) (spawn (PSend 0 (Addr 5) true))) ∧
    channel_receive_wake false 0 (Addr 100) σ1 (spawn (PReceiveWait 0 (Addr 100))) =
      Next σ2 (Thread (PReturn SUCCESS) None [(Addr 100, Addr 5)]) ∧
    chans σ2 !! 0 = Some ch2 ∧
    lb_items (buffer ch2) = [] ∧ open ch2 = true ∧ mutex ch2 = false.
Proof.
  refine (send_hands_to_receiver lb_items (F := list_Buffer_fifo) 0 (Addr 5) true (Addr 100)
            heap_receiver_waits (spawn (PSend 0 (Addr 5) true))
            (spawn (PReceiveWait 0 (Addr 100)))
            (chan_waiting 1 [] (Cond 1 0) pthread_cond_init true)
            eq_refl eq_refl eq_refl eq_refl _ _ _);
    [discriminate | simpl; lia | discriminate].
Defined.

Lemma receive_hands_to_sender_witness :
  ∃ σ1 σ2 ch2,
    channel_receive 0 (Addr 100) false heap_sender_waits
                    (spawn (PReceive 0 (Addr 100) false)) =
      Next σ1 (Thread (PReturn SUCCESS) None [(Addr 100, Addr 1)]) ∧
    channel_send_wake false 0 (Addr 2) σ1 (spawn (PSendWait 0 (Addr 2))) =
      Next σ2 (set_pc (PReturn SUCCESS) (spawn (PSendWait 0 (Addr 2)))) ∧
    chans σ2 !! 0 = Some ch2 ∧
    lb_items (buffer ch2) = [] ++ [Addr 2] ∧ open ch2 = true ∧ mutex ch2 = false.
Proof.
  refine (receive_hands_to_sender lb_items (F := list_Buffer_fifo) 0 (Addr 2) false (Addr 100)
            heap_sender_waits (spawn (PSendWait 0 (Addr 2)))
            (spawn (PReceive 0 (Addr 100) false))
            (chan_waiting 1 [Addr 1] pthread_cond_init (Cond 1 0) true) (Addr 1) []
            eq_refl eq_refl eq_refl eq_refl eq_refl _ _);
    [simpl; lia | discriminate].
Defined.

Lemma receive_success_without_value_witness :
  ∃ σ' ch',
    channel_receive_wake false 0 (Addr 100) heap_closed_woken
                         (spawn (PReceiveWait 0 (Addr 100))) =
      Next σ' (set_pc (PReturn SUCCESS) (spawn (PReceiveWait 0 (Addr 100)))) ∧
    stores (set_pc (PReturn SUCCESS) (spawn (PReceiveWait 0 (Addr 100)))) = [] ∧
    chans σ' !! 0 = Some ch' ∧ lb_items (buffer ch') = [Addr 1] ∧ open ch' = false.
Proof.
  destruct (receive_success_without_value false 0 (Addr 100) heap_closed_woken
              (spawn (PReceiveWait 0 (Addr 100)))
              (chan_waiting 1 [Addr 1] (Cond 1 1) pthread_cond_init false)
              (Cond 0 0) eq_refl eq_refl eq_refl ltac:(discriminate) eq_refl)
    as (σ' & ch' & H1 & H2 & H3 & H4 & H5).
  exists σ', ch'. split; [exact H1|]. split; [exact H2|]. split; [exact H3|].
  split; [by rewrite H4 | exact H5].
Defined.

Ltac free_descriptors :=
  each_descriptor; eexists; split; reflexivity.

Lemma select_registers_witness :
  ∃ σ' t' ch',
    advance 2 heap_selecting (spawn (PSelect 1 500 [Select 0 true (Addr 7)])) = Next σ' t' ∧
    sems σ' = [0; 0] ∧
    chans σ' !! 0 = Some ch' ∧ semaphore ch' = Some 1.
Proof.
  assert (listed_free 1 [Select 0 true (Addr 7)] heap_selecting) as Hfree
    by free_descriptors.
  destruct (select_registers 1 500 [Select 0 true (Addr 7)] heap_selecting
              ltac:(simpl; lia) Hfree)
    as (σ' & t' & Hadv & _ & Hsems & Halt).
  pose proof (Halt 0) as H0. vm_compute in H0.
  eexists σ', t', _. split; [exact Hadv|]. split; [exact Hsems|].
  split; [exact H0 | reflexivity].
Defined.

Lemma nothing_ready_distinct : NoDup (listed 2 nothing_ready).
Proof. apply (bool_decide_unpack _). by vm_compute. Qed.

Lemma select_nothing_ready_witness :
  ∃ σ' t',
    advance 5 heap_idle (spawn (PSelect 2 500 nothing_ready)) = Next σ' t' ∧
    at_pc t' = PSelectWait (Frame 2 500 nothing_ready 0) ∧
    sems σ' = [0] ∧
    step_thread false σ' t' = Stuck ∧
    step_thread false σ' (spawn (PSend 0 (Addr 9) false)) = Stuck.
Proof.
  assert (listed_free 2 nothing_ready heap_idle) as Hfree by free_descriptors.
  assert (∀ i d, i < 2 → nothing_ready !! i = Some d → ready_in heap_idle d = false)
    as Hnr by (each_descriptor; reflexivity).
  destruct (select_nothing_ready 2 500 nothing_ready heap_idle
              ltac:(simpl; lia) Hfree Hnr nothing_ready_distinct)
    as (σ' & t' & Hadv & Hpc & Hsems & _ & Hstuck & Hothers).
  exists σ', t'. split; [exact Hadv|]. split; [exact Hpc|]. split; [exact Hsems|].
  split; [exact Hstuck|].
  refine (Hothers 0 (Select 0 false NULL) false _ _ eq_refl (or_introl _)).
  - lia.
  - by exists (Addr 9), false.
Defined.

Lemma receive_list_distinct : NoDup (listed 2 skip_then_receive).
Proof. apply (bool_decide_unpack _). by vm_compute. Qed.

Lemma send_list_distinct : NoDup (listed 2 skip_then_send).
Proof. apply (bool_decide_unpack _). by vm_compute. Qed.

Lemma select_leaves_locked_witness :
  ∃ σ' t' ch',
    advance 5 heap_two (spawn (PSelect 2 500 skip_then_receive)) = Next σ' t' ∧
    selected_index t' = Some 1 ∧
    chans σ' !! 1 = Some ch' ∧ mutex ch' = true.
Proof.
  assert (listed_free 2 skip_then_receive heap_two) as Hfree by free_descriptors.
  assert (∀ i di, i < 1 → skip_then_receive !! i = Some di → ready_in heap_two di = false)
    as Hnr by (each_descriptor; reflexivity).
  destruct (select_leaves_locked 2 500 skip_then_receive heap_two 1 (Select 0 false NULL)
              ltac:(simpl; lia) ltac:(lia) eq_refl Hfree eq_refl Hnr receive_list_distinct)
    as (σ' & t' & Hadv & Hsel & Hlocked).
  destruct (Hlocked 0 (Select 1 false NULL) ltac:(lia) eq_refl) as [(ch' & Hc & Hm) _].
  exists σ', t', ch'. repeat split; assumption.
Defined.

Lemma select_reports_closed_witness :
  ∃ σ' t' ch',
    call 4 heap_closed (spawn (PSelect 1 500 [Select 0 false NULL])) = Returned σ' t' ∧
    returned t' = Some CLOSED_ERROR ∧
    selected_index t' = Some 0 ∧
    stores t' = [] ∧
    chans σ' !! 0 = Some ch' ∧
    lb_items (buffer ch') = [Addr 2; Addr 3] ∧ open ch' = false.
Proof.
  assert (listed_free 1 [Select 0 false NULL] heap_closed) as Hfree by free_descriptors.
  assert (∀ i di, i < 0 → [Select 0 false NULL] !! i = Some di →
            ready_in heap_closed di = false) as Hnr by (intros i di Hi; lia).
  assert (NoDup (listed 1 [Select 0 false NULL])) as Hnd
    by (apply (bool_decide_unpack _); by vm_compute).
  destruct (select_reports_closed 1 500 [Select 0 false NULL] heap_closed 0
              (Select 0 false NULL) (chan_with 2 [Addr 2; Addr 3] None false)
              ltac:(simpl; lia) ltac:(lia) eq_refl Hfree eq_refl Hnr Hnd eq_refl eq_refl)
    as (σ' & t' & ch' & H1 & H2 & H3 & H4 & H5 & H6 & H7).
  exists σ', t', ch'. split; [exact H1|]. split; [exact H2|]. split; [exact H3|].
  split; [exact H4|]. split; [exact H5|]. split; [by rewrite H6 | exact H7].
Defined.

Lemma select_receives_witness :
  ∃ σ' t' ch',
    call 6 heap_two (spawn (PSelect 2 500 skip_then_receive)) = Returned σ' t' ∧
    returned t' = Some SUCCESS ∧
    selected_index t' = Some 1 ∧
    stores t' = [(DataField 500 1, Addr 1)] ∧
    chans σ' !! 0 = Some ch' ∧
    lb_items (buffer ch') = [] ∧ open ch' = true ∧ mutex ch' = false ∧
    sems σ' = [] ++ [1].
Proof.
  refine (select_receives lb_items (F := list_Buffer_fifo) 2 500 skip_then_receive heap_two 1
            (Select 0 false NULL) (chan_with 1 [Addr 1] None true) (Addr 1) []
            _ _ eq_refl _ _ receive_list_distinct eq_refl eq_refl eq_refl eq_refl).
  - simpl. lia.
  - lia.
  - free_descriptors.
  - each_descriptor. reflexivity.
Defined.

Lemma select_sends_address_witness :
  ∃ σ' t' ch',
    call 6 heap_two (spawn (PSelect 2 500 skip_then_send)) = Returned σ' t' ∧
    returned t' = Some SUCCESS ∧
    selected_index t' = Some 1 ∧
    chans σ' !! 1 = Some ch' ∧
    lb_items (buffer ch') = [] ++ [DataField 500 1] ∧
    open ch' = true ∧ mutex ch' = false.
Proof.
  refine (select_sends_address lb_items (F := list_Buffer_fifo) 2 500 skip_then_send heap_two 1
            (Select 1 true (Addr 8)) (chan_with 1 [] None true)
            _ _ eq_refl _ _ send_list_distinct eq_refl eq_refl eq_refl _).
  - simpl. lia.
  - lia.
  - free_descriptors.
  - each_descriptor. reflexivity.
  - simpl. lia.
Defined.

Lemma asleep_is_asleep : select_asleep 0 0 asleep.
Proof.
  split; [|split; [|split]].
  - by eexists _, _.
  - reflexivity.
  - intros c ch Hc _. unfold asleep in Hc. simpl in Hc.
    by apply lookup_singleton_Some in Hc as [_ <-].
  - intros tid' t' Hne Ht'. destruct tid' as [|[|tid']]; [done| |done].
    simpl in Ht'. injection Ht' as <-. simpl. tauto.
Qed.

Lemma select_sleeps_forever_witness :
  ∃ m', run [Run 1] asleep = Some m' ∧ select_asleep 0 0 m'.
Proof.
  destruct (run [Run 1] asleep) as [m'|] eqn:Hrun; [|vm_compute in Hrun; discriminate].
  exists m'. split; [reflexivity|].
  exact (select_sleeps_forever 0 0 [Run 1] asleep m' asleep_is_asleep Hrun).
Defined.

Lemma select_never_returns_witness :
  ∃ σ' t',
    advance 5 heap_idle (spawn (PSelect 2 500 nothing_ready)) = Next σ' t' ∧
    ∀ sched m',
      run sched (Machine σ' [t'; spawn (PSend 0 (Addr 9) true)]) = Some m' →
      ∃ t'' fr, threads m' !! 0 = Some t'' ∧ at_pc t'' = PSelectWait fr.
Proof.
  refine (select_never_returns 2 500 nothing_ready heap_idle [spawn (PSend 0 (Addr 9) true)]
            _ _ _ nothing_ready_distinct _ _).
  - simpl. lia.
  - free_descriptors.
  - each_descriptor; reflexivity.
  - intros c ch s Hc Hs. unfold heap_idle in Hc. simpl in Hc.
    apply lookup_insert_Some in Hc as [[_ <-] | [_ Hc]]; [discriminate|].
    apply lookup_singleton_Some in Hc as [_ <-]. discriminate.
  - repeat constructor. simpl. tauto.
Defined.

End MoreRuns.
